(** * Petstore data-fetching layer: keys, auth attachment, query functions,
      fetch coordination and SSR prefill.

    The development follows the TypeScript sources:
    - [src/api/petstore-hooks.ts]  (key factory, query hooks, invalidation helpers)
    - [src/lib/auth.ts]            (token storage and [attachAuthToClient])
    - the root provider of the query client  ([getContext])
    - [src/routes/demo/petstore.tsx], the [/demo/petstore-ssr] route
      ([getPetsSsr] and its two loaders, the awaiting and the streaming one)

    The cache engine the hooks call into is not part of the repository; it is
    modelled from the written specification (sections 3 to 4.6) in module
    [Coordinator]. *)

From stdpp Require Import gmap strings list fin_maps.
From Stdlib Require Import ZArith Lia.

Local Open Scope Z_scope.

(** ** JavaScript values that may be absent *)

Module JS.

(** A value of TypeScript type [A | null | undefined]. *)
Inductive js (A : Type) : Type :=
  | JUndefined
  | JNull
  | JVal (a : A).
Arguments JUndefined {A}.
Arguments JNull {A}.
Arguments JVal {A} a.

(** [a ?? b]: the right operand replaces [null] and [undefined] only. *)
Definition nullish {A} (a b : js A) : js A :=
  match a with
  | JVal _ => a
  | _ => b
  end.

(** [a || b] for an operand whose defined values are objects or arrays
    (always truthy, also when empty). *)
Definition or_object {A} (a : js A) (b : A) : A :=
  match a with
  | JVal v => v
  | _ => b
  end.

(** Truthiness of a [string | undefined]: [undefined] and the empty string
    are falsy. *)
Definition truthy_string (s : option string) : bool :=
  match s with
  | None => false
  | Some EmptyString => false
  | Some (String _ _) => true
  end.

(** The outcome of awaiting a promise. *)
Inductive settled (A E : Type) : Type :=
  | Fulfilled (a : A)
  | RejectedWith (e : E).
Arguments Fulfilled {A E} a.
Arguments RejectedWith {A E} e.

End JS.
Import JS.

(** ** Query keys ([petstoreKeys] in petstore-hooks.ts) *)

Module PetstoreKeys.

(** ["available" | "pending" | "sold"] *)
Inductive PetStatus : Type := available | pending | sold.

#[global] Instance PetStatus_eq_dec : EqDecision PetStatus.
Proof. solve_decision. Defined.

#[global] Instance PetStatus_countable : Countable PetStatus.
Proof.
  refine (inj_countable'
    (fun s => match s with available => 0%nat | pending => 1%nat | sold => 2%nat end)
    (fun n => match n with O => available | S O => pending | _ => sold end) _).
  by intros [].
Defined.

(** One element of a query key: a string, a number, or an embedded array of
    status values. *)
Inductive Segment : Type :=
  | SegStr (s : string)
  | SegNum (n : Z)
  | SegStatuses (l : list PetStatus).

#[global] Instance Segment_eq_dec : EqDecision Segment.
Proof. solve_decision. Defined.

#[global] Instance Segment_countable : Countable Segment.
Proof.
  refine (inj_countable'
    (fun g => match g with
              | SegStr s => inl s
              | SegNum n => inr (inl n)
              | SegStatuses l => inr (inr l)
              end)
    (fun x => match x with
              | inl s => SegStr s
              | inr (inl n) => SegNum n
              | inr (inr l) => SegStatuses l
              end) _).
  by intros [].
Defined.

Definition CacheKey : Type := list Segment.

(** [all: ["petstore"]] *)
Definition all : CacheKey := [SegStr "petstore"].

(** [pets: () => [...petstoreKeys.all, "pets"]] *)
Definition pets : CacheKey := all ++ [SegStr "pets"].

(** [pet: (id) => [...petstoreKeys.pets(), id]] *)
Definition pet (id : Z) : CacheKey := pets ++ [SegNum id].

(** [petsByStatus: (status) => [...petstoreKeys.pets(), "status", status]] *)
Definition petsByStatus (status : list PetStatus) : CacheKey :=
  pets ++ [SegStr "status"; SegStatuses status].

(** [inventory: () => [...petstoreKeys.all, "inventory"]] *)
Definition inventory : CacheKey := all ++ [SegStr "inventory"].

(** [orders: () => [...petstoreKeys.all, "orders"]] *)
Definition orders : CacheKey := all ++ [SegStr "orders"].

(** [order: (id) => [...petstoreKeys.orders(), id]] *)
Definition order (id : Z) : CacheKey := orders ++ [SegNum id].

End PetstoreKeys.
Import PetstoreKeys.

(** ** Token storage and the shared client configuration (lib/auth.ts) *)

Module Auth.

Definition STORAGE_KEY : string := "petstore_token".

(** The host environment: whether [window] is defined, whether access to
    [localStorage] throws, whether [require] throws (it does where the module
    system has none), and the contents of [localStorage]. *)
Record Env : Type := mkEnv {
  has_window : bool;
  storage_throws : bool;
  require_throws : bool;
  local_storage : gmap string string
}.

(** The [auth] option of the client: a literal token or a callback that
    resolves one from the environment. *)
Inductive AuthOption : Type :=
  | AuthToken (t : string)
  | AuthCallback (f : Env -> option string).

(** Modelled from the spec: the generated client ([api/petstore/client.gen],
    absent from the sources) holds one process-wide configuration object; the
    fields the sources write are its base URL, its [Authorization] header and
    its [auth] callback. *)
Record ClientConfig : Type := mkConfig {
  cfg_baseUrl : option string;
  cfg_Authorization : option string;
  cfg_auth : option AuthOption
}.

(** The argument of [client.setConfig]: each field is either left out or
    given; a header given as [null] is recorded as [Some None]. *)
Record ConfigPatch : Type := mkPatch {
  p_baseUrl : option string;
  p_Authorization : option (option string);
  p_auth : option AuthOption
}.

(** Modelled from the spec: [client.setConfig] of the absent generated client
    merges the given fields into the shared configuration object; a [null]
    header removes that header. *)
Definition setConfig (p : ConfigPatch) (c : ClientConfig) : ClientConfig :=
  {| cfg_baseUrl := match p_baseUrl p with Some u => Some u | None => cfg_baseUrl c end;
     cfg_Authorization :=
       match p_Authorization p with Some h => h | None => cfg_Authorization c end;
     cfg_auth := match p_auth p with Some a => Some a | None => cfg_auth c end |}.

(** Modelled from the spec: a call issued through the generated client
    transmits the [Authorization] header of the shared configuration. *)
Definition outgoing_credential (c : ClientConfig) : option string :=
  cfg_Authorization c.

(** The configuration after the module-level
    [client.setConfig({ baseUrl: "https://petstore.swagger.io/v2" })]. *)
Definition initial_config : ClientConfig :=
  setConfig {| p_baseUrl := Some "https://petstore.swagger.io/v2";
               p_Authorization := None; p_auth := None |}
            {| cfg_baseUrl := None; cfg_Authorization := None; cfg_auth := None |}.

(** [getStoredToken] *)
Definition getStoredToken (env : Env) : option string :=
  if negb (has_window env) then None
  else if storage_throws env then None
  else local_storage env !! STORAGE_KEY.

(** [authCallback = async () => getStoredToken()] *)
Definition authCallback : Env -> option string := getStoredToken.

(** [token.startsWith("Bearer ") ? token : `Bearer ${token}`] *)
Definition bearer_header (token : string) : string :=
  if String.prefix "Bearer " token then token else "Bearer " +:+ token.

(** The header value [attachAuthToClient] writes: [null] for a falsy token. *)
Definition header_for (token : option string) : option string :=
  match token with
  | Some t => if truthy_string token then Some (bearer_header t) else None
  | None => None
  end.

(** [attachAuthToClient] *)
Definition attachAuthToClient (token : option string) (c : ClientConfig)
  : ClientConfig :=
  if negb (truthy_string token) then
    setConfig {| p_baseUrl := None; p_Authorization := Some None; p_auth := None |} c
  else
    match token with
    | Some t =>
        setConfig {| p_baseUrl := None;
                     p_Authorization := Some (Some (bearer_header t));
                     p_auth := None |} c
    | None => c
    end.

(** [setStoredToken]: state is the environment and the shared configuration. *)
Definition setStoredToken (token : string) (st : Env * ClientConfig)
  : Env * ClientConfig :=
  let '(env, c) := st in
  if negb (has_window env) then st
  else if storage_throws env then st
  else (mkEnv (has_window env) (storage_throws env) (require_throws env)
              (<[STORAGE_KEY := token]> (local_storage env)),
        attachAuthToClient (Some token) c).

(** [clearStoredToken] *)
Definition clearStoredToken (st : Env * ClientConfig) : Env * ClientConfig :=
  let '(env, c) := st in
  if negb (has_window env) then st
  else if storage_throws env then st
  else (mkEnv (has_window env) (storage_throws env) (require_throws env)
              (delete STORAGE_KEY (local_storage env)),
        attachAuthToClient None c).

(** [initAuthForServer] *)
Definition initAuthForServer (token : option string) (c : ClientConfig)
  : ClientConfig := attachAuthToClient token c.

(** The effect of [getContext] (the root provider) on the shared client: the
    whole block sits in [try { ... } catch { }], so a throwing [require] leaves
    the client as it was; otherwise, on the client side, it registers
    [authCallback] and attaches a stored token that is truthy. *)
Definition getContext_client_effect (env : Env) (c : ClientConfig) : ClientConfig :=
  if require_throws env then c
  else if has_window env then
    let c1 := setConfig {| p_baseUrl := None; p_Authorization := None;
                           p_auth := Some (AuthCallback authCallback) |} c in
    let token := getStoredToken env in
    if truthy_string token then attachAuthToClient token c1 else c1
  else c.

End Auth.
Import Auth.

(** ** Query functions and query options (petstore-hooks.ts) *)

Module Hooks.

(** What an SDK method resolves with: [data] and [error] may each be absent. *)
Record SdkResponse (A E : Type) : Type := mkResponse {
  resp_data : js A;
  resp_error : js E
}.
Arguments mkResponse {A E} _ _.
Arguments resp_data {A E} _.
Arguments resp_error {A E} _.

(** Awaiting an SDK call either yields a response or throws. *)
Definition SdkOutcome (A E : Type) : Type := settled (SdkResponse A E) E.

(** The caller-supplied [options] spread last into the query descriptor. *)
Record QueryOptions : Type := mkOptions {
  opt_enabled : option bool;
  opt_staleTime : option Z
}.

Definition no_options : QueryOptions :=
  {| opt_enabled := None; opt_staleTime := None |}.

Section QueryFns.
Context {PetType Order E : Type}.

(** [useFindPetsByStatus]: [return response.data ?? []] *)
Definition findPetsByStatus_queryFn (out : SdkOutcome (list PetType) E)
  : settled (js (list PetType)) E :=
  match out with
  | Fulfilled response => Fulfilled (nullish (resp_data response) (JVal []))
  | RejectedWith e => RejectedWith e
  end.

(** [useGetPetById]: [return response.data ?? null] *)
Definition getPetById_queryFn (out : SdkOutcome PetType E)
  : settled (js PetType) E :=
  match out with
  | Fulfilled response => Fulfilled (nullish (resp_data response) JNull)
  | RejectedWith e => RejectedWith e
  end.

(** [useGetInventory]: [return response.data ?? {}] *)
Definition getInventory_queryFn (out : SdkOutcome (gmap string Z) E)
  : settled (js (gmap string Z)) E :=
  match out with
  | Fulfilled response => Fulfilled (nullish (resp_data response) (JVal ∅))
  | RejectedWith e => RejectedWith e
  end.

(** [useGetOrderById]: [return response.data ?? null] *)
Definition getOrderById_queryFn (out : SdkOutcome Order E)
  : settled (js Order) E :=
  match out with
  | Fulfilled response => Fulfilled (nullish (resp_data response) JNull)
  | RejectedWith e => RejectedWith e
  end.
End QueryFns.

(** Whether a query function resolved with [undefined]. *)
Definition resolves_undefined {A E} (r : settled (js A) E) : bool :=
  match r with
  | Fulfilled JUndefined => true
  | _ => false
  end.

(** [enabled: petId > 0, ...options] in [useGetPetById]: the flag the hook
    computes and hands to [useSuspenseQuery]; a caller-supplied [enabled]
    replaces the computed one. *)
Definition useGetPetById_enabled (petId : Z) (options : QueryOptions) : bool :=
  match opt_enabled options with
  | Some b => b
  | None => 0 <? petId
  end.

(** [enabled: orderId > 0, ...options] in [useGetOrderById]: the flag the
    hook computes and hands to [useQuery]. *)
Definition useGetOrderById_enabled (orderId : Z) (options : QueryOptions) : bool :=
  match opt_enabled options with
  | Some b => b
  | None => 0 <? orderId
  end.

(** [DEFAULT_STALE_TIME = 1000 * 60 * 2] (the root provider) *)
Definition DEFAULT_STALE_TIME : Z := 1000 * 60 * 2.

(** The stale time of a query: the caller's option, else the client default
    installed by [getContext]. *)
Definition staleTime_of (options : QueryOptions) : Z :=
  match opt_staleTime options with
  | Some t => t
  | None => DEFAULT_STALE_TIME
  end.

End Hooks.
Import Hooks.

(** ** The cache engine

    The hooks hand their keys, query functions and options to the query
    client of the cache library, which is not part of the sources. Its
    behaviour is taken from the written specification; every definition
    taken from there says so. *)

Module Coordinator.

(** Modelled from the spec: the entry status of the absent cache library,
    section 3: [idle | loading | success | stale | error]. *)
Inductive Status : Type := idle | loading | success | stale | error.

#[global] Instance Status_eq_dec : EqDecision Status.
Proof. solve_decision. Defined.

(** Modelled from the spec: the policy argument of the absent [getOrFetch],
    section 4.4: [enabled] and [staleMs]. *)
Record Policy : Type := mkPolicy {
  enabled : bool;
  staleMs : Z
}.

(** Callers are told apart by a number. *)
Definition Caller : Type := nat.

Section Engine.
Context {T E : Type}.

(** Modelled from the spec: the entry of the absent cache library, section 3,
    CacheEntry [{ key, data: T | null, status, fetchedAt: timestamp | null,
    error: ErrorInfo | null }]; the key is the map key of the store. *)
Record CacheEntry : Type := mkEntry {
  data : option T;
  status : Status;
  fetchedAt : option Z;
  error_info : option E
}.

(** How the underlying fetch settles: with data or with an error. *)
Inductive FetchResult : Type :=
  | FetchOk (d : T)
  | FetchErr (e : E).

(** What a caller of [getOrFetch] receives: the entry's data, or the
    error of the fetch it waited for. *)
Inductive Observed : Type :=
  | Got (d : option T)
  | Failed (e : E).

(** Modelled from the spec: the state of the absent cache library: the Cache
    Store (section 4.2) and the PendingRequest table (section 3: a key mapped
    to the callers awaiting its single in-flight fetch). Three logs are kept
    beside them for the statements below: the invocations of the fetch
    function, the fetches that settled, and what each caller received, latest
    first. *)
Record State : Type := mkState {
  store : gmap CacheKey CacheEntry;
  pendingReq : gmap CacheKey (list Caller);
  fetched : list CacheKey;
  settledLog : list CacheKey;
  observed : list (Caller * Observed)
}.

(** The state of a freshly created client: nothing cached, nothing pending. *)
Definition init : State :=
  {| store := ∅; pendingReq := ∅; fetched := []; settledLog := [];
     observed := [] |}.

(** Modelled from the spec: [get(key)] of the absent Cache Store,
    section 4.2. *)
Definition get (k : CacheKey) (st : gmap CacheKey CacheEntry) : option CacheEntry :=
  st !! k.

(** Modelled from the spec: [put(key, entry)] of the absent Cache Store,
    section 4.2. *)
Definition put (k : CacheKey) (e : CacheEntry) (st : gmap CacheKey CacheEntry)
  : gmap CacheKey CacheEntry := <[k := e]> st.

(** Modelled from the spec: the test the absent Cache Store applies in a
    prefix scan, section 4.6: the key sequence starts with [prefix]. *)
Definition starts_with (prefix k : CacheKey) : bool :=
  bool_decide (prefix `prefix_of` k).

(** Modelled from the spec: [scanByPrefix(prefix)] of the absent Cache Store,
    section 4.2: the entries whose key starts with [prefix]. *)
Definition scanByPrefix (prefix : CacheKey) (st : gmap CacheKey CacheEntry)
  : gmap CacheKey CacheEntry :=
  filter (fun ke => starts_with prefix ke.1 = true) st.

(** Modelled from the spec: the entry the absent cache library creates for a
    key it has not seen, section 4.6: initial state on creation [idle]. *)
Definition new_entry : CacheEntry :=
  {| data := None; status := idle; fetchedAt := None; error_info := None |}.

(** Modelled from the spec: a status transition of the absent cache library,
    section 3: the entry is changed in place, only its status. *)
Definition with_status (st : Status) (e : CacheEntry) : CacheEntry :=
  {| data := data e; status := st; fetchedAt := fetchedAt e;
     error_info := error_info e |}.

(** Modelled from the spec: the freshness test of the absent [getOrFetch],
    section 4.4 step 2: [status = success] and
    [now - fetchedAt < policy.staleMs], with the edge case that a zero or
    negative [staleMs] never counts as fresh. *)
Definition is_fresh (p : Policy) (now : Z) (e : CacheEntry) : bool :=
  match status e, fetchedAt e with
  | success, Some t0 => (0 <? staleMs p) && (now - t0 <? staleMs p)
  | _, _ => false
  end.

(** Modelled from the spec: steps 3 and 4 of the absent [getOrFetch],
    section 4.4: join the PendingRequest if there is one; otherwise create
    it, set [status = loading] and invoke the fetch function. *)
Definition on_miss (c : Caller) (k : CacheKey) (s : State) : State :=
  match pendingReq s !! k with
  | Some waiters =>
      {| store := store s;
         pendingReq := <[k := waiters ++ [c]]> (pendingReq s);
         fetched := fetched s;
         settledLog := settledLog s;
         observed := observed s |}
  | None =>
      {| store := put k (with_status loading (default new_entry (get k (store s))))
                      (store s);
         pendingReq := <[k := [c]]> (pendingReq s);
         fetched := k :: fetched s;
         settledLog := settledLog s;
         observed := observed s |}
  end.

(** Modelled from the spec: [getOrFetch(key, fetchFn, policy)] of the absent
    cache library, section 4.4, up to the point where the fetch function has
    been invoked; a disabled policy short-circuits. The credential resolved in
    step 4 is handed to the fetch function only and is not part of this
    state. *)
Definition getOrFetch (c : Caller) (k : CacheKey) (p : Policy) (now : Z)
           (s : State) : State :=
  if negb (enabled p) then s
  else
    match get k (store s) with
    | Some e =>
        if is_fresh p now e then
          {| store := store s;
             pendingReq := pendingReq s;
             fetched := fetched s;
             settledLog := settledLog s;
             observed := (c, Got (data e)) :: observed s |}
        else on_miss c k s
    | None => on_miss c k s
    end.

(** Modelled from the spec: what the absent cache library hands to every
    waiter of a settled fetch, section 4.4 steps 5 and 6: the data, or the
    same error. *)
Definition outcome_of (r : FetchResult) : Observed :=
  match r with
  | FetchOk d => Got (Some d)
  | FetchErr e => Failed e
  end.

(** Modelled from the spec: the entry the absent cache library writes when a
    fetch settles, section 4.4: step 5 writes [status = success], [data],
    [fetchedAt = now]; step 6 writes [status = error] and records the
    error. *)
Definition written (r : FetchResult) (now : Z) (e0 : CacheEntry) : CacheEntry :=
  match r with
  | FetchOk d =>
      {| data := Some d; status := success; fetchedAt := Some now;
         error_info := error_info e0 |}
  | FetchErr e =>
      {| data := data e0; status := error; fetchedAt := fetchedAt e0;
         error_info := Some e |}
  end.

(** Modelled from the spec: the second half of the absent [getOrFetch],
    section 4.4 steps 5 and 6: the in-flight fetch for [k] settles at time
    [now]: the entry is written, every waiter receives the same outcome, the
    PendingRequest is removed. A settlement for a key with no fetch in flight
    does not occur and changes nothing. *)
Definition settle (k : CacheKey) (r : FetchResult) (now : Z) (s : State) : State :=
  match pendingReq s !! k with
  | None => s
  | Some waiters =>
      {| store := put k (written r now (default new_entry (get k (store s))))
                      (store s);
         pendingReq := delete k (pendingReq s);
         fetched := fetched s;
         settledLog := k :: settledLog s;
         observed := ((fun w => (w, outcome_of r)) <$> waiters) ++ observed s |}
  end.

(** Modelled from the spec: [invalidate(prefix)] of the absent cache library,
    section 4.6: set [status = stale] on every entry whose key starts with
    [prefix]. *)
Definition invalidate (prefix : CacheKey) (s : State) : State :=
  {| store := map_imap (fun k e =>
                Some (if starts_with prefix k then with_status stale e else e))
                (store s);
     pendingReq := pendingReq s;
     fetched := fetched s;
     settledLog := settledLog s;
     observed := observed s |}.

(** Modelled from the spec: what the absent [snapshot] exports of one entry,
    section 4.5: a [{key, data, fetchedAt}] triple if the entry is [success]
    and, when a key subset is given, its key is in it. *)
Definition snapshot_entry (keys : option (list CacheKey))
           (ke : CacheKey * CacheEntry) : option (CacheKey * T * Z) :=
  let selected := match keys with
                  | Some ks => bool_decide (ke.1 ∈ ks)
                  | None => true
                  end in
  match status ke.2, data ke.2, fetchedAt ke.2 with
  | success, Some d, Some t => if selected then Some (ke.1, d, t) else None
  | _, _, _ => None
  end.

(** Modelled from the spec: [snapshot(store, keys?)] of the absent hydration
    bridge, section 4.5. *)
Definition snapshot (st : gmap CacheKey CacheEntry) (keys : option (list CacheKey))
  : list (CacheKey * T * Z) :=
  omap (snapshot_entry keys) (map_to_list st).

(** Modelled from the spec: what the absent [hydrate] does with one triple,
    section 4.5: insert it as a [success] entry with the given [fetchedAt]
    unless the store already has an entry for the key. *)
Definition hydrate_one (st : gmap CacheKey CacheEntry) (tr : CacheKey * T * Z)
  : gmap CacheKey CacheEntry :=
  let '(k, d, t) := tr in
  match get k st with
  | Some _ => st
  | None => put k {| data := Some d; status := success; fetchedAt := Some t;
                     error_info := None |} st
  end.

(** Modelled from the spec: [hydrate(store, payload)] of the absent hydration
    bridge, section 4.5: the triples are replayed in order. *)
Definition hydrate (st : gmap CacheKey CacheEntry) (payload : list (CacheKey * T * Z))
  : gmap CacheKey CacheEntry :=
  foldl hydrate_one st payload.

(** The interleavings of one cooperative task (section 5): calls,
    settlements, invalidations and hydration replays arrive one at a time. *)
Inductive Event : Type :=
  | EvGetOrFetch (c : Caller) (k : CacheKey) (p : Policy) (now : Z)
  | EvSettle (k : CacheKey) (r : FetchResult) (now : Z)
  | EvInvalidate (prefix : CacheKey)
  | EvHydrate (payload : list (CacheKey * T * Z)).

(** One event applied to a state. *)
Definition step (s : State) (ev : Event) : State :=
  match ev with
  | EvGetOrFetch c k p now => getOrFetch c k p now s
  | EvSettle k r now => settle k r now s
  | EvInvalidate prefix => invalidate prefix s
  | EvHydrate payload =>
      {| store := hydrate (store s) payload;
         pendingReq := pendingReq s;
         fetched := fetched s;
         settledLog := settledLog s;
         observed := observed s |}
  end.

(** A sequence of events applied in order. *)
Definition run (s : State) (evs : list Event) : State := foldl step s evs.

(** Whether an event is the settlement of the fetch for [k]. *)
Definition settles (k : CacheKey) (ev : Event) : bool :=
  match ev with
  | EvSettle k' _ _ => bool_decide (k' = k)
  | _ => false
  end.

(** The caller of an enabled call for [k], if the event is one. *)
Definition joiner (k : CacheKey) (ev : Event) : option Caller :=
  match ev with
  | EvGetOrFetch c k' p _ =>
      if enabled p && bool_decide (k' = k) then Some c else None
  | _ => None
  end.

(** The callers of the enabled calls for [k] among the events, in order. *)
Definition joiners (k : CacheKey) (evs : list Event) : list Caller :=
  omap (joiner k) evs.

(** How often the fetch function has been invoked for [k]. *)
Definition invocations (k : CacheKey) (s : State) : nat :=
  length (filter (fun x => x = k) (fetched s)).

(** How many fetches for [k] have settled. *)
Definition settlements (k : CacheKey) (s : State) : nat :=
  length (filter (fun x => x = k) (settledLog s)).

(** The fetches for [k] invoked and not yet settled. *)
Definition in_flight (k : CacheKey) (s : State) : nat :=
  (invocations k s - settlements k s)%nat.

(** A state is coherent at a key when the fetch function has been invoked
    once more than its fetches have settled exactly if a PendingRequest
    exists, and an entry with a PendingRequest is present and not in status
    [success]. *)
Definition coherent_at (k : CacheKey) (s : State) : Prop :=
  match pendingReq s !! k with
  | Some _ =>
      invocations k s = S (settlements k s) /\
      exists e, store s !! k = Some e /\ status e <> success
  | None => invocations k s = settlements k s
  end.

(** A state is coherent when it is so at every key. *)
Definition coherent (s : State) : Prop := forall k, coherent_at k s.

End Engine.

Arguments CacheEntry : clear implicits.
Arguments FetchResult : clear implicits.
Arguments Observed : clear implicits.
Arguments State : clear implicits.
Arguments Event : clear implicits.

End Coordinator.
Import Coordinator.

(** ** Invalidation helpers (petstore-hooks.ts) *)

Module Invalidation.

Section Helpers.
Context {T E : Type}.

(** [queryClient.invalidateQueries({ queryKey: petstoreKeys.all })] *)
Definition invalidateAllPetstoreQueries (s : State T E) : State T E :=
  invalidate all s.

(** [queryClient.invalidateQueries({ queryKey: petstoreKeys.pets() })] *)
Definition invalidatePetQueries (s : State T E) : State T E :=
  invalidate pets s.

(** [queryClient.invalidateQueries({ queryKey: petstoreKeys.inventory() })] *)
Definition invalidateInventoryQueries (s : State T E) : State T E :=
  invalidate inventory s.

(** [queryClient.invalidateQueries({ queryKey: petstoreKeys.orders() })] *)
Definition invalidateOrderQueries (s : State T E) : State T E :=
  invalidate orders s.
End Helpers.

End Invalidation.
Import Invalidation.

(** ** What the two query hooks make of the [enabled] flag *)

Module HookPolicies.

(** [useSuspenseQuery] of the absent query library takes no [enabled]: a
    suspense query always runs, whatever flag the options object carries. *)
Definition useSuspenseQuery_policy (enabledOption : bool) (staleTime : Z) : Policy :=
  {| enabled := true; staleMs := staleTime |}.

(** [useQuery] of the absent query library runs the query only while
    [enabled] holds. *)
Definition useQuery_policy (enabledOption : bool) (staleTime : Z) : Policy :=
  {| enabled := enabledOption; staleMs := staleTime |}.

(** The policy under which [useGetPetById] reads:
    [useSuspenseQuery({ ..., enabled: petId > 0, ...options })]. *)
Definition useGetPetById_policy (petId : Z) (options : QueryOptions) : Policy :=
  useSuspenseQuery_policy (useGetPetById_enabled petId options)
                          (staleTime_of options).

(** The policy under which [useGetOrderById] reads:
    [useQuery({ ..., enabled: orderId > 0, ...options })]. *)
Definition useGetOrderById_policy (orderId : Z) (options : QueryOptions) : Policy :=
  useQuery_policy (useGetOrderById_enabled orderId options)
                  (staleTime_of options).

End HookPolicies.
Import HookPolicies.

(** ** Server-side prefill (the [/demo/petstore-ssr] route) *)

Module Ssr.

Section Loaders.
Context {PetType E : Type}.

(** [session.data.userId ? `Bearer ${session.data.userId}` : undefined] *)
Definition ssr_token (userId : option string) : option string :=
  match userId with
  | Some u => if truthy_string userId then Some ("Bearer " +:+ u) else None
  | None => None
  end.

(** The SDK method [Pet.findPetsByStatus], an external collaborator: given
    the status filter and the per-call [auth] it resolves or throws. *)
Definition FindPetsByStatus : Type :=
  list PetStatus -> option string -> SdkOutcome (list PetType) E.

(** [getPetsSsr]: [return response.data || []] *)
Definition getPetsSsr (findPetsByStatus : FindPetsByStatus)
           (userId : option string) : settled (list PetType) E :=
  match findPetsByStatus [available] (ssr_token userId) with
  | Fulfilled response => Fulfilled (or_object (resp_data response) [])
  | RejectedWith e => RejectedWith e
  end.

(** The key both loaders and the component use:
    [petstoreKeys.petsByStatus(["available"])]. *)
Definition ssr_key : CacheKey := petsByStatus [available].

(** The policy of a query that passes no options: enabled, with the
    default stale time installed by [getContext]. *)
Definition default_policy : Policy :=
  {| enabled := true; staleMs := DEFAULT_STALE_TIME |}.

(** The loader, as a caller of the cache. *)
Definition loader_caller : Caller := 0%nat.

(** The route component, as a caller of the cache. *)
Definition component_caller : Caller := 1%nat.

(** How the promise handed to the prefetch settles, seen as a fetch. *)
Definition as_fetch_result (r : settled (list PetType) E)
  : FetchResult (list PetType) E :=
  match r with
  | Fulfilled pets => FetchOk pets
  | RejectedWith e => FetchErr e
  end.

(** Modelled from the spec: [queryClient.prefetchQuery] belongs to the
    absent cache library; it is taken to be a Fetch Coordinator call
    (section 4.4) for the given key under the default policy, whose fetch
    function is the promise handed in. This first half runs up to the
    invocation of the fetch function. *)
Definition prefetchQuery_start (k : CacheKey) (now : Z)
           (s : State (list PetType) E) : State (list PetType) E :=
  getOrFetch loader_caller k default_policy now s.

(** Modelled from the spec: the second half of [queryClient.prefetchQuery]
    of the absent cache library: the promise handed in settles and the
    Fetch Coordinator records the outcome (section 4.4 steps 5 and 6). *)
Definition prefetchQuery_settle (k : CacheKey) (r : settled (list PetType) E)
           (now : Z) (s : State (list PetType) E) : State (list PetType) E :=
  settle k (as_fetch_result r) now s.

(** The awaiting loader:
    [const pets = await getPetsSsr();
     await context.queryClient.prefetchQuery({ queryKey, queryFn: async () => pets });
     return { pets }].
    A rejection of [getPetsSsr] leaves the loader before the prefetch. *)
Definition loader_awaited (sdk : FindPetsByStatus) (userId : option string)
           (now : Z) (s : State (list PetType) E)
  : settled (list PetType) E * State (list PetType) E :=
  match getPetsSsr sdk userId with
  | RejectedWith e => (RejectedWith e, s)
  | Fulfilled pets =>
      (Fulfilled pets,
       prefetchQuery_settle ssr_key (Fulfilled pets) now
         (prefetchQuery_start ssr_key now s))
  end.

(** The streaming loader:
    [const petsPromise = getPetsSsr();
     context.queryClient.prefetchQuery({ queryKey, queryFn: () => petsPromise });
     return { petsPromise }].
    It returns at once; the state is the one in which the prefetch has been
    started. *)
Definition loader_streaming (now : Z) (s : State (list PetType) E)
  : State (list PetType) E :=
  prefetchQuery_start ssr_key now s.

(** The server state once the streamed promise has settled at [later]. *)
Definition loader_streaming_settled (sdk : FindPetsByStatus)
           (userId : option string) (now later : Z)
           (s : State (list PetType) E) : State (list PetType) E :=
  prefetchQuery_settle ssr_key (getPetsSsr sdk userId) later
    (loader_streaming now s).

(** The hydration payload of a server state. *)
Definition payload_of (s : State (list PetType) E)
  : list (CacheKey * list PetType * Z) :=
  snapshot (store s) None.

(** The client after bootstrap: a fresh store replayed from the payload. *)
Definition client_boot (payload : list (CacheKey * list PetType * Z))
  : State (list PetType) E :=
  {| store := hydrate ∅ payload; pendingReq := ∅; fetched := [];
     settledLog := []; observed := [] |}.

(** The first read of the component:
    [useFindPetsByStatus(["available"])] with no options. *)
Definition client_first_read (now : Z) (s : State (list PetType) E)
  : State (list PetType) E :=
  getOrFetch component_caller ssr_key default_policy now s.
End Loaders.

End Ssr.
Import Ssr.

(** ** Mutation functions (petstore-hooks.ts) *)

Module Mutations.

Section MutationFns.
Context {PetType Order E : Type}.

(** [useAddPet]: [return response.data as PetType], the body as it came. *)
Definition addPet_mutationFn (out : SdkOutcome PetType E) : settled (js PetType) E :=
  match out with
  | Fulfilled response => Fulfilled (resp_data response)
  | RejectedWith e => RejectedWith e
  end.

(** [useUpdatePet]: [await Pet.updatePet(...)], nothing returned. *)
Definition updatePet_mutationFn (out : SdkOutcome unit E) : settled unit E :=
  match out with
  | Fulfilled _ => Fulfilled tt
  | RejectedWith e => RejectedWith e
  end.

(** [useDeletePet]: [await Pet.deletePet(...)], nothing returned. *)
Definition deletePet_mutationFn (out : SdkOutcome unit E) : settled unit E :=
  match out with
  | Fulfilled _ => Fulfilled tt
  | RejectedWith e => RejectedWith e
  end.

(** [usePlaceOrder]: [return response.data ?? null] *)
Definition placeOrder_mutationFn (out : SdkOutcome Order E) : settled (js Order) E :=
  match out with
  | Fulfilled response => Fulfilled (nullish (resp_data response) JNull)
  | RejectedWith e => RejectedWith e
  end.
End MutationFns.

End Mutations.
Import Mutations.

(** ** The demo page (routes/demo/petstore.tsx, [PetstoreDemo]) *)

Module Demo.

(** The category of a pet, as the page reads it: [pet.category.name]. *)
Record Category : Type := mkCategory {
  cat_id : option Z;
  cat_name : option string
}.

(** A tag of a pet, as the page reads it: [tag.id], [tag.name]. *)
Record Tag : Type := mkTag {
  tag_id : option Z;
  tag_name : option string
}.

(** The generated [Pet] type is not among the sources; these are the fields
    the page reads and writes. *)
Record Pet : Type := mkPet {
  pet_id : option Z;
  pet_name : string;
  pet_photoUrls : list string;
  pet_status : option PetStatus;
  pet_category : option Category;
  pet_tags : list Tag
}.

(** What a handler of the page does to the outside. *)
Inductive UiEffect : Type :=
  | Alert (msg : string)
  | MutateAddPet (body : Pet)
  | MutateUpdatePet (body : Pet)
  | MutateDeletePet (petId : Z)
  | Nothing.

(** Truthiness of a [number | undefined]: [undefined] and [0] are falsy. *)
Definition truthy_number (n : option Z) : bool :=
  match n with
  | Some 0 => false
  | Some _ => true
  | None => false
  end.




(** [handleAddPet]: both fields must be non-empty, else an alert. *)
Definition handleAddPet (newPetName newPetPhotoUrl : string) : UiEffect :=
  if negb (truthy_string (Some newPetName))
     || negb (truthy_string (Some newPetPhotoUrl))
  then Alert "Please provide both name and photo URL"
  else MutateAddPet {| pet_id := None;
                       pet_name := newPetName;
                       pet_photoUrls := [newPetPhotoUrl];
                       pet_status := Some available;
                       pet_category := None;
                       pet_tags := [] |}.

(** [handleDeletePet]: the mutation runs if the user confirms. *)
Definition handleDeletePet (petId : Z) (confirmed : bool) : UiEffect :=
  if confirmed then MutateDeletePet petId else Nothing.

(** The Delete button: [onClick={() => pet.id && handleDeletePet(pet.id)}]. *)
Definition delete_click (p : Pet) (confirmed : bool) : UiEffect :=
  match pet_id p with
  | Some n => if truthy_number (pet_id p) then handleDeletePet n confirmed else Nothing
  | None => Nothing
  end.

(** [Number.parseInt(petId) || 0], given what [Number.parseInt] made of the
    input ([None] for [NaN]). *)
Definition parsed_or_zero (parsed : option Z) : Z :=
  match parsed with
  | Some n => if truthy_number parsed then n else 0
  | None => 0
  end.

(** The key of the page's [useGetPetById(Number.parseInt(petId) || 0)]. *)
Definition pet_lookup_key (parsed : option Z) : CacheKey :=
  pet (parsed_or_zero parsed).

(** The policy under which that lookup reads: the hook's, with no options. *)
Definition pet_lookup_policy (parsed : option Z) : Policy :=
  useGetPetById_policy (parsed_or_zero parsed) no_options.

(** The form state of the page: the four [useState] cells. *)
Record DemoUi : Type := mkUi {
  ui_status : PetStatus;
  ui_petId : string;
  ui_newPetName : string;
  ui_newPetPhotoUrl : string
}.

Section Handlers.
Context {T E : Type}.

(** [onSuccess] of the add mutation: invalidate the pet queries, clear the
    two form fields, alert, invalidate the inventory query. *)
Definition addPet_onSuccess (st : DemoUi * State T E) : DemoUi * State T E :=
  ({| ui_status := ui_status st.1;
      ui_petId := ui_petId st.1;
      ui_newPetName := "";
      ui_newPetPhotoUrl := "" |},
   invalidateInventoryQueries (invalidatePetQueries st.2)).

(** [onSuccess] of the update mutation: invalidate the pet queries. *)
Definition updatePet_onSuccess (st : DemoUi * State T E) : DemoUi * State T E :=
  (st.1, invalidatePetQueries st.2).

(** [onSuccess] of the delete mutation: invalidate the pet queries and clear
    the pet id field. *)
Definition deletePet_onSuccess (st : DemoUi * State T E) : DemoUi * State T E :=
  ({| ui_status := ui_status st.1;
      ui_petId := "";
      ui_newPetName := ui_newPetName st.1;
      ui_newPetPhotoUrl := ui_newPetPhotoUrl st.1 |},
   invalidatePetQueries st.2).

(** [onError] of the three mutations: an alert, nothing else. *)
Definition mutation_onError (st : DemoUi * State T E) : DemoUi * State T E := st.

(** A mutation that has settled: [onSuccess] runs when the mutation function
    fulfilled, [onError] when it rejected. *)
Definition mutation_settled {A} (r : settled A E)
           (onSuccess onError : DemoUi * State T E -> DemoUi * State T E)
           (st : DemoUi * State T E) : DemoUi * State T E :=
  match r with
  | Fulfilled _ => onSuccess st
  | RejectedWith _ => onError st
  end.

(** The add, update and delete mutations of the page, from the outcome of
    the SDK call to the state after the handlers. *)
Definition addPet_flow (out : SdkOutcome Pet E) (st : DemoUi * State T E)
  : DemoUi * State T E :=
  mutation_settled (addPet_mutationFn out) addPet_onSuccess mutation_onError st.

Definition updatePet_flow (out : SdkOutcome unit E) (st : DemoUi * State T E)
  : DemoUi * State T E :=
  mutation_settled (updatePet_mutationFn out) updatePet_onSuccess mutation_onError st.

Definition deletePet_flow (out : SdkOutcome unit E) (st : DemoUi * State T E)
  : DemoUi * State T E :=
  mutation_settled (deletePet_mutationFn out) deletePet_onSuccess mutation_onError st.
End Handlers.

End Demo.
Import Demo.

(** ** Server functions of the session (server/auth.ts) *)

Module ServerAuth.

(** [SessionData]: [{ userId?, email?, role? }] (lib/session.ts). *)
Record SessionData : Type := mkSession {
  sess_userId : option string;
  sess_email : option string;
  sess_role : option string
}.

(** The data of a session nobody has written to, and after [session.clear()]. *)
Definition empty_session : SessionData :=
  {| sess_userId := None; sess_email := None; sess_role := None |}.

(** [session.update({ userId, email })] of the session store, an external
    collaborator: the fields given replace the stored ones. *)
Definition session_update (userId email : string) (d : SessionData) : SessionData :=
  {| sess_userId := Some userId; sess_email := Some email;
     sess_role := sess_role d |}.

(** [User]: [{ id: string; email?: string; name: string }]. *)
Record User : Type := mkUser {
  user_id : string;
  user_email : option string;
  user_name : string
}.

(** How a server function ends: it returns, or throws a redirect. *)
Inductive ServerResult (A : Type) : Type :=
  | Returned (a : A)
  | ThrowsRedirect (to : string).
Arguments Returned {A} a.
Arguments ThrowsRedirect {A} to.

(** The user object of [loginFn]:
    [{ name: "test", id: "1", email: data.email }]. *)
Record LoginUser : Type := mkLoginUser {
  login_name : string;
  login_id : string;
  login_email : string
}.

(** [const user = { name: "test", id: "1", email: data.email }]: the mock
    lookup; it yields an object, which is never falsy. *)
Definition mock_user (email : string) : option LoginUser :=
  Some {| login_name := "test"; login_id := "1"; login_email := email |}.

(** [loginFn]: the password is not looked at. *)
Definition loginFn (email password : string) (d : SessionData)
  : ServerResult string * SessionData :=
  match mock_user email with
  | None => (Returned "Invalid credentials", d)
  | Some user =>
      (ThrowsRedirect "/", session_update (login_id user) (login_email user) d)
  end.

(** [logoutFn] *)
Definition logoutFn (d : SessionData) : ServerResult unit * SessionData :=
  (ThrowsRedirect "/", empty_session).

(** [getCurrentUserFn]: [null] without a truthy [userId]. *)
Definition getCurrentUserFn (d : SessionData) : option User :=
  match sess_userId d with
  | Some userId =>
      if truthy_string (sess_userId d)
      then Some {| user_id := userId; user_email := sess_email d;
                   user_name := "test" |}
      else None
  | None => None
  end.

(** The state of [AuthProvider] (contexts/auth.tsx): [user] and [isLoading],
    initially [null] and [true]. *)
Record AuthState : Type := mkAuthState {
  auth_user : option User;
  auth_isLoading : bool
}.

Definition auth_initial : AuthState :=
  {| auth_user := None; auth_isLoading := true |}.

(** [fetchUser]: [setIsLoading(true)], then [setUser(userData)] or, in the
    [catch], [setUser(null)], and [setIsLoading(false)] in the [finally]. The
    result is the state after each of the three updates. *)
Definition fetchUser {E} (answer : settled (option User) E) (st : AuthState)
  : list AuthState :=
  let st1 := {| auth_user := auth_user st; auth_isLoading := true |} in
  let st2 := {| auth_user := match answer with
                             | Fulfilled userData => userData
                             | RejectedWith _ => None
                             end;
                auth_isLoading := auth_isLoading st1 |} in
  let st3 := {| auth_user := auth_user st2; auth_isLoading := false |} in
  [st1; st2; st3].

(** The state [fetchUser] leaves behind. *)
Definition fetchUser_final {E} (answer : settled (option User) E) (st : AuthState)
  : AuthState :=
  default st (last (fetchUser answer st)).

End ServerAuth.
Import ServerAuth.

(** ** Stored token and shared credential in step *)

Module TokenSync.

(** The shared client transmits the credential that belongs to the stored
    token. *)
Definition synced (st : Env * ClientConfig) : Prop :=
  outgoing_credential st.2 = header_for (getStoredToken st.1).

(** A browser whose [localStorage] works. *)
Definition storage_works (env : Env) : bool :=
  has_window env && negb (storage_throws env).

End TokenSync.
Import TokenSync.

(** ** Concrete values used to exercise the statements *)

Module Examples.

(** A settled entry fetched at time 0. *)
Definition example_entry : CacheEntry string string :=
  {| data := Some "pets"; status := success; fetchedAt := Some 0;
     error_info := None |}.

(** A store holding that entry under one key, nothing pending. *)
Definition example_store (k : CacheKey) : State string string :=
  {| store := <[k := example_entry]> ∅; pendingReq := ∅; fetched := [];
     settledLog := []; observed := [] |}.

(** An enabled policy with the given stale time. *)
Definition example_policy (ms : Z) : Policy := {| enabled := true; staleMs := ms |}.

End Examples.
Import Examples.

(** * Properties *)

(** ** Key factory *)

Section KeyFacts.

Lemma petsByStatus_inj (s1 s2 : list PetStatus) :
  petsByStatus s1 = petsByStatus s2 -> s1 = s2.
Proof.
  unfold petsByStatus. intros H.
  apply app_inv_head in H. by inversion H.
Qed.

(** C1 (as stated, refuted): two status arrays holding the same values in a
    different order are the same filter set, yet [petsByStatus] gives them
    different keys. *)
Lemma C1_reordered_filter_changes_key :
  [available; pending] ≡ₚ [pending; available] /\
  petsByStatus [available; pending] <> petsByStatus [pending; available].
Proof.
  split.
  - apply perm_swap.
  - intros H. apply petsByStatus_inj in H. discriminate H.
Qed.

(** C1 (amended): key construction is a pure function of the status array
    as a sequence: two calls yield element-wise equal keys exactly when
    their arrays hold the same values in the same order, whatever the array
    instance; the filter is embedded as the last segment, unchanged. *)
Theorem C1_petsByStatus_key_iff_same_sequence (s1 s2 : list PetStatus) :
  (petsByStatus s1 = petsByStatus s2 <-> s1 = s2) /\
  last (petsByStatus s1) = Some (SegStatuses s1).
Proof.
  split; [split|].
  - apply petsByStatus_inj.
  - intros ->. reflexivity.
  - reflexivity.
Qed.

End KeyFacts.

(** ** Auth attachment *)

Section AuthFacts.

Lemma prefix_bearer_app (t : string) :
  String.prefix "Bearer " ("Bearer " +:+ t) = true.
Proof.
  cbn. repeat (destruct (ascii_dec _ _); [|congruence]).
  by destruct t.
Qed.

Lemma bearer_header_prefixed (t : string) :
  bearer_header ("Bearer " +:+ t) = "Bearer " +:+ t.
Proof. unfold bearer_header. by rewrite prefix_bearer_app. Qed.

Lemma bearer_header_starts (t : string) :
  String.prefix "Bearer " (bearer_header t) = true.
Proof.
  unfold bearer_header.
  destruct (String.prefix "Bearer " t) eqn:Hp; [exact Hp | apply prefix_bearer_app].
Qed.

Lemma bearer_header_idem (t : string) :
  bearer_header (bearer_header t) = bearer_header t.
Proof.
  unfold bearer_header at 1. by rewrite bearer_header_starts.
Qed.

Lemma bearer_header_truthy (t : string) :
  truthy_string (Some (bearer_header t)) = true.
Proof.
  pose proof (bearer_header_starts t) as Hs.
  by destruct (bearer_header t).
Qed.

Lemma attach_truthy (t : string) (c : ClientConfig) :
  truthy_string (Some t) = true ->
  attachAuthToClient (Some t) c
  = setConfig {| p_baseUrl := None;
                 p_Authorization := Some (Some (bearer_header t));
                 p_auth := None |} c.
Proof. intros H. unfold attachAuthToClient. by rewrite H. Qed.

Lemma attach_credential (tok : option string) (c : ClientConfig) :
  outgoing_credential (attachAuthToClient tok c) = header_for tok.
Proof. by destruct tok as [[|a t]|]. Qed.

(** C7: attaching an absent token leaves no [Authorization] credential;
    the token ["abc"] is sent as ["Bearer abc"]; a token that already starts
    with ["Bearer "] is sent unchanged and any other non-empty token is sent
    with the scheme put in front once; the written header is a fixed point of
    the rule, so attaching it again applies no second prefix. *)
Theorem C7_bearer_scheme_attachment (c : ClientConfig) (a : Ascii.ascii) (t : string) :
  outgoing_credential (attachAuthToClient None c) = None /\
  outgoing_credential (attachAuthToClient (Some "abc") c) = Some "Bearer abc" /\
  outgoing_credential (attachAuthToClient (Some "Bearer abc") c)
    = Some "Bearer abc" /\
  outgoing_credential (attachAuthToClient (Some ("Bearer " +:+ t)) c)
    = Some ("Bearer " +:+ t) /\
  outgoing_credential (attachAuthToClient (Some (String a t)) c)
    = Some (if String.prefix "Bearer " (String a t) then String a t
            else "Bearer " +:+ String a t) /\
  attachAuthToClient (outgoing_credential (attachAuthToClient (Some t) c))
                     (attachAuthToClient (Some t) c)
    = attachAuthToClient (Some t) c.
Proof.
  split; [reflexivity|]. split; [reflexivity|]. split; [reflexivity|].
  split; [|split].
  - rewrite attach_credential. cbn. by rewrite bearer_header_prefixed.
  - by rewrite attach_credential.
  - destruct t as [|b t]; [reflexivity|].
    rewrite attach_credential. cbn [header_for truthy_string].
    rewrite !attach_truthy by (reflexivity || apply bearer_header_truthy).
    by rewrite bearer_header_idem.
Qed.

(** C6 (as stated, refuted): attaching a token for one context rewrites the
    configuration object shared by all calls, and the credential a call of
    another context transmits afterwards is no longer its own but the one
    attached last. *)
Lemma C6_attach_overwrites_shared_credential :
  let shared := attachAuthToClient (Some "alice") initial_config in
  outgoing_credential shared = Some "Bearer alice" /\
  outgoing_credential (attachAuthToClient (Some "bob") shared)
    = Some "Bearer bob" /\
  outgoing_credential (attachAuthToClient (Some "bob") shared)
    <> outgoing_credential shared /\
  attachAuthToClient (Some "bob") shared <> shared.
Proof.
  cbv zeta. repeat split; try reflexivity; discriminate.
Qed.

(** C6 (amended): [attachAuthToClient] writes the credential into the one
    configuration shared by every call: after two attachments the
    transmitted credential is the one derived from the token attached last,
    whatever was attached before; the base URL and the registered auth
    callback are left as they were. [getContext] does the same with the
    stored token when its [require] calls work, it runs in a browser and the
    token is truthy, and otherwise leaves the shared credential alone. *)
Theorem C6_last_attached_token_wins
    (c : ClientConfig) (tokA tokB : option string) (env : Env) :
  outgoing_credential (attachAuthToClient tokB (attachAuthToClient tokA c))
    = header_for tokB /\
  cfg_baseUrl (attachAuthToClient tokB c) = cfg_baseUrl c /\
  cfg_auth (attachAuthToClient tokB c) = cfg_auth c /\
  outgoing_credential (getContext_client_effect env c)
    = if negb (require_throws env) && has_window env
         && truthy_string (getStoredToken env)
      then header_for (getStoredToken env)
      else outgoing_credential c.
Proof.
  split; [apply attach_credential|].
  split; [by destruct tokB as [[|a t]|]|].
  split; [by destruct tokB as [[|a t]|]|].
  unfold getContext_client_effect.
  destruct (require_throws env); [done|]. cbn [negb andb].
  destruct (has_window env); [|done]. cbn [andb].
  destruct (truthy_string (getStoredToken env)); [|done].
  apply attach_credential.
Qed.

End AuthFacts.

(** ** Query functions *)

Section QueryFnFacts.
Context {PetType Order E : Type}.

(** C10: no query function resolves with [undefined]: an absent response
    body becomes [[]] for the status search, [null] for a single pet or
    order, and the empty object for the inventory. *)
Theorem C10_query_results_never_undefined
    (petsOut : SdkOutcome (list PetType) E) (petOut : SdkOutcome PetType E)
    (inventoryOut : SdkOutcome (gmap string Z) E)
    (orderOut : SdkOutcome Order E) (err : js E) :
  (resolves_undefined (findPetsByStatus_queryFn petsOut) = false /\
   resolves_undefined (getPetById_queryFn petOut) = false /\
   resolves_undefined (getInventory_queryFn inventoryOut) = false /\
   resolves_undefined (getOrderById_queryFn orderOut) = false) /\
  (findPetsByStatus_queryFn (PetType := PetType)
     (Fulfilled (mkResponse JUndefined err)) = Fulfilled (JVal []) /\
   getPetById_queryFn (PetType := PetType)
     (Fulfilled (mkResponse JUndefined err)) = Fulfilled JNull /\
   getInventory_queryFn (Fulfilled (mkResponse JUndefined err))
     = Fulfilled (JVal ∅) /\
   getOrderById_queryFn (Order := Order)
     (Fulfilled (mkResponse JUndefined err)) = Fulfilled JNull).
Proof.
  split; [|repeat split].
  repeat split.
  - by destruct petsOut as [[[| |?] ?]|?].
  - by destruct petOut as [[[| |?] ?]|?].
  - by destruct inventoryOut as [[[| |?] ?]|?].
  - by destruct orderOut as [[[| |?] ?]|?].
Qed.

End QueryFnFacts.

(** ** Snapshot and hydration *)

Section StoreFacts.
Context {T E : Type}.
Implicit Types (st : gmap CacheKey (CacheEntry T E)).

Lemma snapshot_elem st k (d : T) (t : Z) :
  (k, d, t) ∈ snapshot st None <->
  exists e, st !! k = Some e /\ status e = success /\
            data e = Some d /\ fetchedAt e = Some t.
Proof.
  unfold snapshot. rewrite list_elem_of_omap. split.
  - intros ([k' e] & Hin & Hsome).
    apply elem_of_map_to_list in Hin.
    unfold snapshot_entry in Hsome. cbn in Hsome.
    destruct (status e) eqn:Hst; try discriminate.
    destruct (data e) as [d'|] eqn:Hd; try discriminate.
    destruct (fetchedAt e) as [t'|] eqn:Ht; try discriminate.
    inversion Hsome; subst. by exists e.
  - intros (e & Hk & Hst & Hd & Ht).
    exists (k, e). split; [by apply elem_of_map_to_list|].
    unfold snapshot_entry. cbn. by rewrite Hst, Hd, Ht.
Qed.

Lemma snapshot_omits st k :
  (forall e, st !! k = Some e -> status e <> success) ->
  forall d t, (k, d, t) ∉ snapshot st None.
Proof.
  intros H d t Hin. apply snapshot_elem in Hin as (e & Hk & Hst & _).
  by apply (H e Hk).
Qed.

Lemma hydrate_absent (payload : list (CacheKey * T * Z)) st k :
  st !! k = None ->
  (forall d t, (k, d, t) ∉ payload) ->
  hydrate st payload !! k = None.
Proof.
  revert st. induction payload as [|[[k' d'] t'] payload IH]; intros st Hk Hno.
  - done.
  - cbn. apply IH.
    + unfold hydrate_one, get, put. destruct (st !! k'); [done|].
      rewrite lookup_insert_ne; [done|].
      intros ->. apply (Hno d' t'). by left.
    + intros d t Hin. apply (Hno d t). by right.
Qed.

Lemma hydrate_present (payload : list (CacheKey * T * Z)) st k e :
  st !! k = Some e -> hydrate st payload !! k = Some e.
Proof.
  revert st. induction payload as [|[[k' d'] t'] payload IH]; intros st Hk.
  - done.
  - cbn. apply IH. unfold hydrate_one, get, put.
    destruct (st !! k') eqn:Hk'; [done|].
    rewrite lookup_insert_ne; [done|]. congruence.
Qed.

End StoreFacts.

(** ** The fetch coordinator *)

(** Reduce the projections of a state written out as a record. *)
Ltac state_fields :=
  cbn [store pendingReq fetched settledLog observed].

Create HintDb coherence.

Section EngineFacts.
Context {T E : Type}.
Implicit Types (s : State T E) (e : CacheEntry T E) (k : CacheKey)
               (p : Policy) (c : Caller) (r : FetchResult T E).

Lemma getOrFetch_disabled c k p now s :
  enabled p = false -> getOrFetch c k p now s = s.
Proof. intros H. unfold getOrFetch. by rewrite H. Qed.

Lemma getOrFetch_hit c k p now s e :
  enabled p = true -> store s !! k = Some e -> is_fresh p now e = true ->
  getOrFetch c k p now s
  = {| store := store s; pendingReq := pendingReq s; fetched := fetched s;
       settledLog := settledLog s;
       observed := (c, Got (data e)) :: observed s |}.
Proof.
  intros Hen Hk Hf. unfold getOrFetch, get. by rewrite Hen, Hk, Hf.
Qed.

Lemma getOrFetch_miss c k p now s :
  enabled p = true ->
  (forall e, store s !! k = Some e -> is_fresh p now e = false) ->
  getOrFetch c k p now s = on_miss c k s.
Proof.
  intros Hen Hf. unfold getOrFetch, get. rewrite Hen. cbn.
  destruct (store s !! k) as [e|] eqn:Hk; [|done].
  by rewrite (Hf e eq_refl).
Qed.


Lemma is_fresh_not_success p now e :
  status e <> success -> is_fresh p now e = false.
Proof. intros Hs. unfold is_fresh. by destruct (status e). Qed.


Lemma on_miss_fresh_fetch c k s :
  pendingReq s !! k = None ->
  on_miss c k s
  = {| store := <[k := with_status loading (default new_entry (store s !! k))]>
                  (store s);
       pendingReq := <[k := [c]]> (pendingReq s);
       fetched := k :: fetched s;
       settledLog := settledLog s;
       observed := observed s |}.
Proof. intros H. unfold on_miss. by rewrite H. Qed.

Lemma on_miss_join c k s waiters :
  pendingReq s !! k = Some waiters ->
  on_miss c k s
  = {| store := store s;
       pendingReq := <[k := waiters ++ [c]]> (pendingReq s);
       fetched := fetched s;
       settledLog := settledLog s;
       observed := observed s |}.
Proof. intros H. unfold on_miss. by rewrite H. Qed.

Lemma on_miss_observed c k s : observed (on_miss c k s) = observed s.
Proof. unfold on_miss. by destruct (pendingReq s !! k). Qed.

Lemma on_miss_pending c k s : is_Some (pendingReq (on_miss c k s) !! k).
Proof.
  unfold on_miss. destruct (pendingReq s !! k); cbn;
    rewrite lookup_insert_eq; eauto.
Qed.

Lemma getOrFetch_observes_data c k p now s o :
  observed (getOrFetch c k p now s) = o :: observed s ->
  exists d, o = (c, Got d).
Proof.
  unfold getOrFetch. intros H.
  assert (Hno : forall s0 : State T E, observed s0 = o :: observed s0 -> False).
  { intros s0 H0. apply (f_equal length) in H0. cbn in H0. lia. }
  destruct (enabled p); cbn [negb] in H; [|by destruct (Hno s)].
  destruct (get k (store s)) as [e|].
  - destruct (is_fresh p now e).
    + cbn in H. inversion H. eauto.
    + rewrite on_miss_observed in H. by destruct (Hno s).
  - rewrite on_miss_observed in H. by destruct (Hno s).
Qed.

Lemma settle_pending k r now s waiters :
  pendingReq s !! k = Some waiters ->
  settle k r now s
  = {| store := <[k := written r now (default new_entry (store s !! k))]> (store s);
       pendingReq := delete k (pendingReq s);
       fetched := fetched s;
       settledLog := k :: settledLog s;
       observed := ((fun w => (w, outcome_of r)) <$> waiters) ++ observed s |}.
Proof. intros H. unfold settle. by rewrite H. Qed.

Lemma settle_idle k r now s :
  pendingReq s !! k = None -> settle k r now s = s.
Proof. intros H. unfold settle. by rewrite H. Qed.

Lemma invalidate_lookup prefix k s :
  store (invalidate prefix s) !! k
  = (fun e => if starts_with prefix k then with_status stale e else e)
      <$> store s !! k.
Proof.
  unfold invalidate. cbn. rewrite map_lookup_imap.
  by destruct (store s !! k).
Qed.

Lemma invalidate_scan prefix k s :
  store (invalidate prefix s) !! k
  = match scanByPrefix prefix (store s) !! k with
    | Some e => Some (with_status stale e)
    | None => store s !! k
    end.
Proof.
  rewrite invalidate_lookup. unfold scanByPrefix.
  rewrite map_lookup_filter.
  destruct (store s !! k) as [e|]; [|done]. cbn.
  destruct (starts_with prefix k) eqn:Hp.
  - by rewrite option_guard_True.
  - rewrite option_guard_False; [done|]. cbn. congruence.
Qed.

Lemma starts_with_true prefix k :
  starts_with prefix k = true <-> prefix `prefix_of` k.
Proof. unfold starts_with. apply bool_decide_eq_true. Qed.

Lemma starts_with_false prefix k :
  starts_with prefix k = false <-> ~ prefix `prefix_of` k.
Proof. unfold starts_with. apply bool_decide_eq_false. Qed.

(** *** Counting invocations and settlements *)

Lemma count_cons_eq (k : CacheKey) (l : list CacheKey) :
  length (filter (fun x => x = k) (k :: l))
  = S (length (filter (fun x => x = k) l)).
Proof. by rewrite filter_cons_True. Qed.

Lemma count_cons_ne (k k' : CacheKey) (l : list CacheKey) :
  k' <> k ->
  length (filter (fun x => x = k) (k' :: l))
  = length (filter (fun x => x = k) l).
Proof. intros H. by rewrite filter_cons_False. Qed.

(** *** Coherence is kept by every event *)

Lemma coherent_init : coherent (init (T := T) (E := E)).
Proof. intros k. unfold coherent_at. cbn. by rewrite lookup_empty. Qed.

Lemma coherent_on_miss c k0 s : coherent s -> coherent (on_miss c k0 s).
Proof.
  intros Hs k. specialize (Hs k). unfold coherent_at in *.
  unfold invocations, settlements in *.
  unfold on_miss. destruct (pendingReq s !! k0) as [ws|] eqn:Hp0;
    state_fields.
  - destruct (decide (k0 = k)) as [->|Hne].
    + rewrite lookup_insert_eq. by rewrite Hp0 in Hs.
    + by rewrite lookup_insert_ne.
  - destruct (decide (k0 = k)) as [->|Hne].
    + rewrite lookup_insert_eq, count_cons_eq. rewrite Hp0 in Hs.
      split; [by rewrite Hs|].
      eexists. unfold put. rewrite lookup_insert_eq. split; [done|]. done.
    + rewrite lookup_insert_ne, count_cons_ne by done.
      unfold put. by rewrite lookup_insert_ne.
Qed.

Lemma coherent_getOrFetch c k0 p now s :
  coherent s -> coherent (getOrFetch c k0 p now s).
Proof.
  intros Hs. unfold getOrFetch.
  destruct (enabled p); cbn; [|done].
  destruct (get k0 (store s)) as [e|]; [|by apply coherent_on_miss].
  destruct (is_fresh p now e); [|by apply coherent_on_miss].
  intros k. apply (Hs k).
Qed.

Lemma coherent_settle k0 r now s : coherent s -> coherent (settle k0 r now s).
Proof.
  intros Hs k. pose proof (Hs k) as Hk. unfold coherent_at in *.
  unfold settle. destruct (pendingReq s !! k0) as [ws|] eqn:Hp0; [|done].
  unfold invocations, settlements in *. state_fields.
  destruct (decide (k0 = k)) as [->|Hne].
  - rewrite lookup_delete_eq, count_cons_eq. rewrite Hp0 in Hk. by destruct Hk.
  - rewrite lookup_delete_ne, count_cons_ne by done.
    unfold put. by rewrite lookup_insert_ne.
Qed.

Lemma coherent_invalidate prefix s : coherent s -> coherent (invalidate prefix s).
Proof.
  intros Hs k. specialize (Hs k). unfold coherent_at in *.
  change (pendingReq (invalidate prefix s)) with (pendingReq s).
  change (invocations k (invalidate prefix s)) with (invocations k s).
  change (settlements k (invalidate prefix s)) with (settlements k s).
  destruct (pendingReq s !! k); [|done].
  destruct Hs as [Hc (e & He & Hst)]. split; [done|].
  rewrite invalidate_lookup, He. cbn. eexists; split; [done|].
  by destruct (starts_with prefix k).
Qed.

Lemma coherent_hydrate payload s :
  coherent s ->
  coherent {| store := hydrate (store s) payload; pendingReq := pendingReq s;
              fetched := fetched s; settledLog := settledLog s;
              observed := observed s |}.
Proof.
  intros Hs k. specialize (Hs k). unfold coherent_at in *.
  unfold invocations, settlements in *. state_fields.
  destruct (pendingReq s !! k); [|done].
  destruct Hs as [Hc (e & He & Hst)]. split; [done|].
  exists e. split; [by apply hydrate_present|done].
Qed.

Lemma coherent_step s (ev : Event T E) : coherent s -> coherent (step s ev).
Proof.
  destruct ev; cbn [step];
    auto using coherent_getOrFetch, coherent_settle, coherent_invalidate,
               coherent_hydrate.
Qed.

Lemma coherent_run (evs : list (Event T E)) s :
  coherent s -> coherent (run s evs).
Proof.
  revert s. induction evs as [|ev evs IH]; intros s Hs; [done|].
  cbn. apply IH. by apply coherent_step.
Qed.

#[local] Hint Resolve coherent_init coherent_getOrFetch coherent_settle
  coherent_invalidate coherent_hydrate coherent_step coherent_run : coherence.

Lemma coherent_in_flight s k : coherent s -> (in_flight k s <= 1)%nat.
Proof.
  intros Hs. specialize (Hs k). unfold coherent_at, in_flight in *.
  destruct (pendingReq s !! k); [destruct Hs as [-> _]|rewrite Hs]; lia.
Qed.


Lemma coherent_pending_in_flight s k waiters :
  coherent s -> pendingReq s !! k = Some waiters -> in_flight k s = 1%nat.
Proof.
  intros Hs Hp. specialize (Hs k). unfold coherent_at, in_flight in *.
  rewrite Hp in Hs. destruct Hs as [-> _]. lia.
Qed.

(** *** Events that arrive while a fetch is in flight *)

Lemma on_miss_other c k k' s :
  k' <> k ->
  pendingReq (on_miss c k' s) !! k = pendingReq s !! k /\
  store (on_miss c k' s) !! k = store s !! k /\
  invocations k (on_miss c k' s) = invocations k s.
Proof.
  intros Hne. unfold on_miss, invocations.
  destruct (pendingReq s !! k'); state_fields.
  - by rewrite lookup_insert_ne.
  - unfold put. by rewrite !lookup_insert_ne, count_cons_ne.
Qed.

Lemma step_while_pending k s (ev : Event T E) waiters e :
  pendingReq s !! k = Some waiters ->
  store s !! k = Some e -> status e <> success ->
  settles k ev = false ->
  pendingReq (step s ev) !! k = Some (waiters ++ option_list (joiner k ev)) /\
  (exists e', store (step s ev) !! k = Some e' /\ status e' <> success) /\
  invocations k (step s ev) = invocations k s.
Proof.
  intros Hp He Hst Hns.
  destruct ev as [c k' p now|k' r now|prefix|payload]; cbn [step joiner].
  - unfold getOrFetch. destruct (enabled p) eqn:Hen; cbn [negb andb].
    2:{ cbn. rewrite app_nil_r. eauto. }
    destruct (decide (k' = k)) as [->|Hne].
    + rewrite bool_decide_eq_true_2 by done. unfold get. rewrite He.
      rewrite is_fresh_not_success by done.
      rewrite (on_miss_join _ _ _ waiters) by done.
      cbn [pendingReq store option_list]. rewrite lookup_insert_eq. eauto.
    + rewrite bool_decide_eq_false_2 by done. cbn [option_list].
      rewrite app_nil_r.
      destruct (on_miss_other c k k' s Hne) as (Hp' & Hs' & Hi').
      destruct (get k' (store s)) as [e'|];
        [destruct (is_fresh p now e')|]; state_fields;
        rewrite ?Hp', ?Hs'; eauto.
  - cbn in Hns. apply bool_decide_eq_false in Hns.
    cbn [option_list]. rewrite app_nil_r. unfold settle, invocations.
    destruct (pendingReq s !! k'); state_fields; [|eauto].
    unfold put. rewrite lookup_delete_ne, lookup_insert_ne by done. eauto.
  - cbn [option_list]. rewrite app_nil_r.
    change (pendingReq (invalidate prefix s)) with (pendingReq s).
    split; [done|]. split; [|done].
    rewrite invalidate_lookup, He. cbn. eexists; split; [done|].
    by destruct (starts_with prefix k).
  - cbn [option_list pendingReq store]. rewrite app_nil_r.
    split; [done|]. split; [|done].
    exists e. split; [by apply hydrate_present|done].
Qed.

Lemma run_while_pending k (evs : list (Event T E)) s waiters e :
  pendingReq s !! k = Some waiters ->
  store s !! k = Some e -> status e <> success ->
  Forall (fun ev => settles k ev = false) evs ->
  pendingReq (run s evs) !! k = Some (waiters ++ joiners k evs) /\
  invocations k (run s evs) = invocations k s.
Proof.
  revert s waiters e.
  induction evs as [|ev evs IH]; intros s waiters e Hp He Hst Hns.
  - cbn. by rewrite app_nil_r.
  - apply Forall_cons in Hns as [Hns1 Hns].
    destruct (step_while_pending k s ev waiters e Hp He Hst Hns1)
      as (Hp' & (e' & He' & Hst') & Hi').
    destruct (IH (step s ev) _ e' Hp' He' Hst' Hns) as (Hp'' & Hi'').
    change (run s (ev :: evs)) with (run (step s ev) evs).
    split; [|congruence].
    rewrite Hp''. f_equal. rewrite <- app_assoc. f_equal.
    unfold joiners. cbn [omap list_omap]. by destruct (joiner k ev).
Qed.

(** C2: in every state the engine can reach, no key has more than one
    fetch in flight; and once a call for a key has had to fetch, however many
    further calls for that key arrive before the fetch settles, interleaved
    with any other events, the fetch function has been invoked for the key
    exactly once, all those callers wait on the same request, and all of them
    receive the very same outcome, value or error, when it settles. *)
Theorem C2_request_coalescing
    (history meanwhile : list (Event T E)) k c0 p0 now0 r later :
  let s := run init history in
  let s' := run (getOrFetch c0 k p0 now0 s) meanwhile in
  let callers := c0 :: joiners k meanwhile in
  enabled p0 = true ->
  pendingReq s !! k = None ->
  (forall e, store s !! k = Some e -> is_fresh p0 now0 e = false) ->
  Forall (fun ev => settles k ev = false) meanwhile ->
  (forall k', (in_flight k' s <= 1)%nat /\ (in_flight k' s' <= 1)%nat) /\
  invocations k s' = S (invocations k s) /\
  in_flight k s' = 1%nat /\
  pendingReq s' !! k = Some callers /\
  invocations k (settle k r later s') = S (invocations k s) /\
  pendingReq (settle k r later s') !! k = None /\
  observed (settle k r later s')
    = ((fun w => (w, outcome_of r)) <$> callers) ++ observed s'.
Proof.
  intros s s' callers Hen0 Hidle Hstale Hns.
  assert (Hcs : coherent s) by (subst s; auto with coherence).
  assert (Hcs' : coherent s') by (subst s' s; auto with coherence).
  assert (H1 : getOrFetch c0 k p0 now0 s
               = {| store := <[k := with_status loading
                                      (default new_entry (store s !! k))]> (store s);
                    pendingReq := <[k := [c0]]> (pendingReq s);
                    fetched := k :: fetched s;
                    settledLog := settledLog s;
                    observed := observed s |}).
  { rewrite getOrFetch_miss by done. by rewrite on_miss_fresh_fetch. }
  destruct (run_while_pending k meanwhile (getOrFetch c0 k p0 now0 s) [c0]
              (with_status loading (default new_entry (store s !! k))))
    as (Hp' & Hi'); [rewrite H1; apply lookup_insert_eq
                    | rewrite H1; apply lookup_insert_eq | done | done |].
  fold s' in Hp', Hi'.
  assert (Hinv : invocations k s' = S (invocations k s)).
  { rewrite Hi', H1. unfold invocations. state_fields. apply count_cons_eq. }
  split; [|split; [done|split; [|split; [done|]]]].
  - intros k'. split; by apply coherent_in_flight.
  - by eapply coherent_pending_in_flight.
  - rewrite (settle_pending _ _ _ _ callers) by done.
    state_fields. rewrite lookup_delete_eq.
    split; [|done]. rewrite <- Hinv. reflexivity.
Qed.


(** C4 (amended): [invalidate(prefix)] turns every entry under the prefix
    into the same entry with status [stale] (data, timestamp and presence
    kept), leaves every other entry, the pending table and the logs untouched
    and removes or adds no key; the next call for such a key is never answered
    from the cache: with no fetch in flight it invokes the fetch function
    exactly once and further calls join it, with a fetch in flight it joins
    that one and invokes none; and when the fetch succeeds the entry is
    [success] with the new data. *)
Theorem C4_invalidation_marks_stale prefix k e c p now s d later :
  store s !! k = Some e ->
  prefix `prefix_of` k ->
  enabled p = true ->
  let s1 := invalidate prefix s in
  let s2 := getOrFetch c k p now s1 in
  let s3 := settle k (FetchOk d) later s2 in
  (store s1 !! k = Some (with_status stale e) /\
   data (with_status stale e) = data e /\
   status (with_status stale e) = stale) /\
  (forall k' e', store s !! k' = Some e' ->
     (prefix `prefix_of` k' -> store s1 !! k' = Some (with_status stale e')) /\
     (~ prefix `prefix_of` k' -> store s1 !! k' = Some e')) /\
  (forall k', store s1 !! k' = None <-> store s !! k' = None) /\
  (pendingReq s1 = pendingReq s /\ fetched s1 = fetched s /\
   observed s1 = observed s) /\
  (observed s2 = observed s /\ is_Some (pendingReq s2 !! k)) /\
  (pendingReq s !! k = None ->
     fetched s2 = k :: fetched s /\
     pendingReq s2 !! k = Some [c] /\
     (forall c' p' now', enabled p' = true ->
        fetched (getOrFetch c' k p' now' s2) = k :: fetched s)) /\
  (forall waiters, pendingReq s !! k = Some waiters ->
     fetched s2 = fetched s /\ pendingReq s2 !! k = Some (waiters ++ [c])) /\
  store s3 !! k = Some {| data := Some d; status := success;
                          fetchedAt := Some later;
                          error_info := error_info e |}.
Proof.
  intros He Hpre Hen s1 s2 s3.
  assert (H1 : store s1 !! k = Some (with_status stale e)).
  { subst s1. rewrite invalidate_lookup, He. cbn.
    by rewrite (proj2 (starts_with_true prefix k) Hpre). }
  assert (Hp1 : pendingReq s1 = pendingReq s) by done.
  assert (Hmiss : s2 = on_miss c k s1).
  { subst s2. rewrite getOrFetch_miss; [done|done|].
    intros e' He'. apply is_fresh_not_success.
    assert (e' = with_status stale e) as -> by congruence. done. }
  assert (Hfresh : pendingReq s !! k = None ->
            s2 = {| store := <[k := with_status loading (with_status stale e)]>
                               (store s1);
                    pendingReq := <[k := [c]]> (pendingReq s);
                    fetched := k :: fetched s;
                    settledLog := settledLog s;
                    observed := observed s |}).
  { intros Hidle. rewrite Hmiss, on_miss_fresh_fetch by (by rewrite Hp1).
    by rewrite H1. }
  assert (Hjoin : forall waiters, pendingReq s !! k = Some waiters ->
            s2 = {| store := store s1;
                    pendingReq := <[k := waiters ++ [c]]> (pendingReq s);
                    fetched := fetched s;
                    settledLog := settledLog s;
                    observed := observed s |}).
  { intros waiters Hw. rewrite Hmiss.
    by rewrite (on_miss_join _ _ _ waiters) by (by rewrite Hp1). }
  split; [done|]. split; [|split; [|split; [done|split; [|split; [|split]]]]].
  - intros k' e' He'. subst s1. rewrite invalidate_lookup, He'. cbn. split.
    + intros Hp. by rewrite (proj2 (starts_with_true prefix k') Hp).
    + intros Hp. by rewrite (proj2 (starts_with_false prefix k') Hp).
  - intros k'. subst s1. rewrite invalidate_lookup.
    by destruct (store s !! k').
  - rewrite Hmiss. split; [by rewrite on_miss_observed|apply on_miss_pending].
  - intros Hidle. rewrite (Hfresh Hidle). state_fields.
    rewrite lookup_insert_eq. repeat split.
    intros c' p' now' Hen'.
    rewrite getOrFetch_miss; [|done|].
    2:{ intros e'. state_fields. rewrite lookup_insert_eq.
        intros [= <-]. by apply is_fresh_not_success. }
    rewrite (on_miss_join _ _ _ [c]); [done|]. cbn. apply lookup_insert_eq.
  - intros waiters Hw. rewrite (Hjoin waiters Hw). state_fields.
    by rewrite lookup_insert_eq.
  - subst s3. destruct (pendingReq s !! k) as [waiters|] eqn:Hk.
    + rewrite (settle_pending _ _ _ _ (waiters ++ [c])).
      2:{ rewrite (Hjoin waiters eq_refl). state_fields. apply lookup_insert_eq. }
      state_fields. rewrite lookup_insert_eq.
      rewrite (Hjoin waiters eq_refl). state_fields. by rewrite H1.
    + rewrite (settle_pending _ _ _ _ [c]).
      2:{ rewrite (Hfresh eq_refl). state_fields. apply lookup_insert_eq. }
      state_fields. rewrite lookup_insert_eq.
      rewrite (Hfresh eq_refl). state_fields. by rewrite lookup_insert_eq.
Qed.

(** C5: when the fetch for a key fails, every caller waiting on it receives
    the same error; the entry's data is not replaced by the error and the
    request is no longer pending; and the next enabled call for the key,
    under any policy and at any time, is not answered from the store but
    invokes the fetch function again. *)
Theorem C5_errors_are_not_sticky k err later waiters c p now s :
  pendingReq s !! k = Some waiters ->
  enabled p = true ->
  let s1 := settle k (FetchErr err) later s in
  let s2 := getOrFetch c k p now s1 in
  observed s1 = ((fun w => (w, Failed err)) <$> waiters) ++ observed s /\
  pendingReq s1 !! k = None /\
  fetched s1 = fetched s /\
  (exists e1, store s1 !! k = Some e1 /\ status e1 = error /\
              data e1 = data (default new_entry (store s !! k))) /\
  observed s2 = observed s1 /\
  fetched s2 = k :: fetched s1 /\
  pendingReq s2 !! k = Some [c] /\
  (forall (s' : State T E) c' k' p' now' o,
     observed (getOrFetch c' k' p' now' s') = o :: observed s' ->
     exists d, o = (c', Got d)).
Proof.
  intros Hp Hen s1 s2.
  assert (H1 : s1 = {| store := <[k := written (FetchErr err) later
                                         (default new_entry (store s !! k))]> (store s);
                       pendingReq := delete k (pendingReq s);
                       fetched := fetched s;
                       settledLog := k :: settledLog s;
                       observed := ((fun w => (w, Failed err)) <$> waiters)
                                     ++ observed s |}).
  { subst s1. by rewrite (settle_pending _ _ _ _ waiters). }
  assert (Hidle : pendingReq s1 !! k = None).
  { rewrite H1. cbn. apply lookup_delete_eq. }
  split; [by rewrite H1|]. split; [done|]. split; [by rewrite H1|].
  split.
  { rewrite H1. state_fields. rewrite lookup_insert_eq. by eexists. }
  split; [|split; [|split]];
    [| | |intros s' c' k' p' now' o; apply getOrFetch_observes_data].
  all: subst s2; rewrite getOrFetch_miss; [|done|].
  all: try (intros e'; rewrite H1; state_fields; rewrite lookup_insert_eq;
            intros [= <-]; by apply is_fresh_not_success).
  all: rewrite on_miss_fresh_fetch by done; cbn; try done.
  by rewrite lookup_insert_eq.
Qed.

(** C9 (failing in the code): a call whose policy is disabled returns the
    state it was given, with no fetch and store and pending table untouched,
    and [useGetOrderById] with an id that is not positive reads under such a
    policy. [useGetPetById] computes the same flag, false for such an id, but
    hands it to [useSuspenseQuery]: the policy it reads under is enabled, and
    on a cache that has nothing for the key the fetch function is invoked for
    the pet with that id. *)
Theorem C9_suspense_pet_query_runs_when_disabled
    c now s (id : Z) (options : QueryOptions) :
  id <= 0 ->
  opt_enabled options <> Some true ->
  store s !! pet id = None ->
  pendingReq s !! pet id = None ->
  (forall k p, enabled p = false -> getOrFetch c k p now s = s) /\
  (useGetOrderById_enabled id options = false /\
   getOrFetch c (order id) (useGetOrderById_policy id options) now s = s) /\
  (useGetPetById_enabled id options = false /\
   enabled (useGetPetById_policy id options) = true /\
   fetched (getOrFetch c (pet id) (useGetPetById_policy id options) now s)
     = pet id :: fetched s /\
   getOrFetch c (pet id) (useGetPetById_policy id options) now s <> s).
Proof.
  intros Hid Hopt Hk Hidle.
  assert (Hpet : useGetPetById_enabled id options = false).
  { unfold useGetPetById_enabled. destruct (opt_enabled options) as [[]|];
      [done|done|]. apply Z.ltb_ge. lia. }
  assert (Hord : useGetOrderById_enabled id options = false).
  { unfold useGetOrderById_enabled. destruct (opt_enabled options) as [[]|];
      [done|done|]. apply Z.ltb_ge. lia. }
  assert (Hrun : fetched (getOrFetch c (pet id) (useGetPetById_policy id options)
                            now s) = pet id :: fetched s).
  { rewrite getOrFetch_miss; [|done|by intros e; rewrite Hk].
    by rewrite on_miss_fresh_fetch. }
  split; [intros k p Hp; by apply getOrFetch_disabled|].
  split; [split; [done|by apply getOrFetch_disabled]|].
  split; [done|]. split; [done|]. split; [done|].
  intros Heq. rewrite Heq in Hrun.
  apply (f_equal length) in Hrun. cbn in Hrun. lia.
Qed.

End EngineFacts.

(** ** The SSR loaders *)

Section LoaderFacts.
Context {PetType E : Type}.
Implicit Types (s : State (list PetType) E)
               (sdk : FindPetsByStatus (PetType := PetType) (E := E)).

Lemma prefetch_cold now later s (r : settled (list PetType) E) :
  store s !! ssr_key = None -> pendingReq s !! ssr_key = None ->
  prefetchQuery_settle ssr_key r later (prefetchQuery_start ssr_key now s)
  = {| store := <[ssr_key := written (as_fetch_result r) later
                               (with_status loading new_entry)]> (store s);
       pendingReq := pendingReq s;
       fetched := ssr_key :: fetched s;
       settledLog := ssr_key :: settledLog s;
       observed := (loader_caller, outcome_of (as_fetch_result r)) :: observed s |}.
Proof.
  intros Hk Hp. unfold prefetchQuery_settle, prefetchQuery_start.
  rewrite getOrFetch_miss; [|done|by intros e; rewrite Hk].
  rewrite on_miss_fresh_fetch by done.
  rewrite (settle_pending _ _ _ _ [loader_caller]) by apply lookup_insert_eq.
  cbn [store pendingReq fetched settledLog observed].
  rewrite lookup_insert_eq, insert_insert_eq, delete_insert_eq, Hk.
  rewrite delete_id by done. done.
Qed.

Lemma getPetsSsr_without_body sdk userId response :
  sdk [available] (ssr_token userId) = Fulfilled response ->
  (forall pets, resp_data response <> JVal pets) ->
  getPetsSsr sdk userId = Fulfilled [].
Proof.
  intros Hr Hno. unfold getPetsSsr. rewrite Hr.
  destruct (resp_data response) as [| |pets]; [done|done|].
  by destruct (Hno pets).
Qed.

(** C8 (amended): with the payload being the snapshot of the [success]
    entries, on a server store with no entry and no fetch in flight for the
    key, a rejection of [getPetsSsr] makes the awaiting loader reject with
    the same error, the store unchanged and the key absent from the payload,
    while the streaming loader has already returned with the fetch started
    and, once the promise has rejected, the key is omitted from the payload
    all the same; a client booted from either payload issues a cold fetch on
    its first read. An SDK call that resolves without a body is not a failure
    of [getPetsSsr]: the awaiting loader completes and prefills the key as a
    [success] entry holding the empty list. *)
Theorem C8_ssr_failure_paths
    (failing noBody : FindPetsByStatus (PetType := PetType) (E := E))
    userId err response now later clientNow s :
  getPetsSsr failing userId = RejectedWith err ->
  noBody [available] (ssr_token userId) = Fulfilled response ->
  (forall pets, resp_data response <> JVal pets) ->
  store s !! ssr_key = None ->
  pendingReq s !! ssr_key = None ->
  let streamed := loader_streaming_settled failing userId now later s in
  (loader_awaited failing userId now s = (RejectedWith err, s) /\
   (forall d t, (ssr_key, d, t) ∉ payload_of s) /\
   fetched (client_first_read clientNow
              (client_boot (E := E)
                 (payload_of (loader_awaited failing userId now s).2)))
     = [ssr_key] /\
   observed (client_first_read clientNow
               (client_boot (E := E)
                  (payload_of (loader_awaited failing userId now s).2)))
     = []) /\
  (fetched (loader_streaming now s) = ssr_key :: fetched s /\
   pendingReq (loader_streaming now s) !! ssr_key = Some [loader_caller] /\
   forall d t, (ssr_key, d, t) ∉ payload_of streamed) /\
  (fetched (client_first_read clientNow (client_boot (E := E) (payload_of streamed)))
     = [ssr_key] /\
   observed (client_first_read clientNow (client_boot (E := E) (payload_of streamed)))
     = []) /\
  ((loader_awaited noBody userId now s).1 = Fulfilled [] /\
   (ssr_key, [], now) ∈ payload_of (loader_awaited noBody userId now s).2).
Proof.
  intros Hfail Hresp Hno Hk Hp streamed.
  assert (Homit : forall d t, (ssr_key, d, t) ∉ payload_of streamed).
  { subst streamed. unfold loader_streaming_settled, loader_streaming.
    rewrite prefetch_cold by done. rewrite Hfail.
    apply snapshot_omits. state_fields. intros e.
    rewrite lookup_insert_eq. by intros [= <-]. }
  split; [|split; [|split]].
  - assert (Hnone : forall d t, (ssr_key, d, t) ∉ payload_of s).
    { apply snapshot_omits. intros e. by rewrite Hk. }
    assert (Hcold : client_first_read clientNow
                      (client_boot (E := E)
                         (payload_of (loader_awaited failing userId now s).2))
                    = on_miss component_caller ssr_key
                        (client_boot (E := E) (payload_of s))).
    { unfold loader_awaited. rewrite Hfail. cbn [snd].
      unfold client_first_read. rewrite getOrFetch_miss; [done|done|].
      intros e. unfold client_boot. state_fields.
      rewrite hydrate_absent; [done|apply lookup_empty|done]. }
    split; [unfold loader_awaited; by rewrite Hfail|].
    split; [done|]. rewrite Hcold.
    by rewrite on_miss_fresh_fetch by apply lookup_empty.
  - unfold loader_streaming, prefetchQuery_start.
    rewrite getOrFetch_miss; [|done|by intros e; rewrite Hk].
    rewrite on_miss_fresh_fetch by done. cbn.
    by rewrite lookup_insert_eq.
  - unfold client_first_read.
    rewrite getOrFetch_miss; [|done|].
    2:{ intros e. unfold client_boot. state_fields.
        rewrite hydrate_absent; [done|apply lookup_empty|done]. }
    by rewrite on_miss_fresh_fetch by apply lookup_empty.
  - unfold loader_awaited.
    rewrite (getPetsSsr_without_body noBody userId response) by done.
    split; [done|]. cbn [snd]. rewrite prefetch_cold by done.
    apply snapshot_elem. state_fields. rewrite lookup_insert_eq.
    by eexists.
Qed.

End LoaderFacts.

(** C8 (as stated, refuted): with an SDK call that throws, the awaiting
    loader does not complete but rejects with the error; with an SDK call that
    resolves carrying an error and no body, the loader completes and the key
    is not omitted from the hydration payload: it is there with an empty
    list. *)
Lemma C8_awaited_loader_does_not_omit_or_absorb :
  let throwing : FindPetsByStatus (PetType := string) (E := string) :=
    fun _ _ => RejectedWith "NetworkError" in
  let bodyless : FindPetsByStatus (PetType := string) (E := string) :=
    fun _ _ => Fulfilled (mkResponse JUndefined (JVal "NetworkError")) in
  (loader_awaited throwing None 0 init).1 = RejectedWith "NetworkError" /\
  ~ (exists pets, (loader_awaited throwing None 0 init).1 = Fulfilled pets) /\
  (loader_awaited bodyless None 0 init).1 = Fulfilled [] /\
  ~ (forall d t, (ssr_key, d, t) ∉ payload_of (loader_awaited bodyless None 0 init).2).
Proof.
  cbv zeta. split; [reflexivity|]. split; [by intros [pets Hp]|].
  split; [reflexivity|].
  intros Homitted. apply (Homitted [] 0).
  unfold loader_awaited, getPetsSsr. cbn [resp_data or_object snd].
  rewrite prefetch_cold by apply lookup_empty.
  apply snapshot_elem. state_fields. rewrite lookup_insert_eq. by eexists.
Qed.

(** ** The properties at concrete inputs *)

Section Instances.

(** Five callers ask for the same key before the fetch settles, while a
    call for another key and an invalidation come in between: one invocation
    for the key, five identical answers. *)
Lemma C2_five_concurrent_callers :
  let k := petsByStatus [available] in
  let meanwhile : list (Event string string) :=
    [EvGetOrFetch 2%nat k (example_policy 1000) 1;
     EvGetOrFetch 9%nat inventory (example_policy 1000) 1;
     EvGetOrFetch 3%nat k (example_policy 0) 2;
     EvInvalidate pets;
     EvGetOrFetch 4%nat k (example_policy 1000) 3;
     EvGetOrFetch 5%nat k (example_policy 1000) 4] in
  let s' := run (getOrFetch 1%nat k (example_policy 1000) 0 init) meanwhile in
  invocations k s' = 1%nat /\
  observed (settle k (FetchOk "pets") 50 s')
    = [(1%nat, Got (Some "pets")); (2%nat, Got (Some "pets"));
       (3%nat, Got (Some "pets")); (4%nat, Got (Some "pets"));
       (5%nat, Got (Some "pets"))].
Proof.
  intros k meanwhile s'.
  destruct (C2_request_coalescing (T := string) (E := string)
              [] meanwhile k 1%nat (example_policy 1000) 0 (FetchOk "pets") 50)
    as (_ & Hi & _ & _ & _ & _ & Ho).
  - reflexivity.
  - apply lookup_empty.
  - intros e He. unfold run, init in He. cbn [foldl store] in He.
    rewrite lookup_empty in He. discriminate He.
  - repeat constructor.
  - split; [exact Hi | exact Ho].
Defined.


(** After [invalidatePetQueries] the entry of pet 123 is stale with its
    data kept; the next read fetches once and a success restores it. *)
Lemma C4_invalidate_pets_then_refetch :
  let k := pet 123 in
  let s1 := invalidatePetQueries (example_store k) in
  let s2 := getOrFetch 1%nat k (example_policy 1000) 10 s1 in
  store s1 !! k = Some (with_status stale example_entry) /\
  fetched s2 = [k] /\
  store (settle k (FetchOk "fresh") 20 s2) !! k
    = Some {| data := Some "fresh"; status := success; fetchedAt := Some 20;
              error_info := None |}.
Proof.
  intros k s1 s2.
  destruct (C4_invalidation_marks_stale pets k example_entry 1%nat
              (example_policy 1000) 10 (example_store k) "fresh" 20)
    as ((H1 & _) & _ & _ & _ & _ & H2 & _ & H3);
    [apply lookup_insert_eq | by exists [SegNum 123] | reflexivity |].
  destruct H2 as (H2 & _); [apply lookup_empty|].
  split; [exact H1 | split; [exact H2 | exact H3]].
Defined.

(** C4 (as stated, refuted): the prefix is invalidated while the fetch for
    pet 123 is still in flight. The entry is stale, yet the next read issues no
    refetch: it joins the fetch that was started before the invalidation, and
    once that one has succeeded a later read is served its result from the
    cache, so no fetch at all follows the invalidation. *)
Lemma C4_read_after_invalidate_may_join :
  let k := pet 123 in
  let s : State string string :=
    run init [EvGetOrFetch 1%nat k (example_policy 1000) 0] in
  let s1 := invalidatePetQueries s in
  let s2 := getOrFetch 2%nat k (example_policy 1000) 1 s1 in
  let s3 := settle k (FetchOk "before") 2 s2 in
  let s4 := getOrFetch 3%nat k (example_policy 1000) 3 s3 in
  (status <$> store s1 !! k) = Some stale /\
  fetched s2 = fetched s1 /\
  fetched s2 <> k :: fetched s1 /\
  fetched s4 = fetched s1 /\
  observed s4 = (3%nat, Got (Some "before")) :: observed s3.
Proof.
  cbv zeta. vm_compute. repeat split; try reflexivity. discriminate.
Qed.

(** Two callers wait on a fetch that fails: both get the error, and the
    next read calls the fetch function again. *)
Lemma C5_failed_fetch_is_retried :
  let k := pet 7 in
  let s : State string string :=
    run init [EvGetOrFetch 1%nat k (example_policy 1000) 0;
              EvGetOrFetch 2%nat k (example_policy 1000) 1] in
  let s1 := settle k (FetchErr "NetworkError") 5 s in
  observed s1 = [(1%nat, Failed "NetworkError"); (2%nat, Failed "NetworkError")] /\
  fetched (getOrFetch 3%nat k (example_policy 1000) 6 s1) = [k; k].
Proof.
  intros k s s1.
  destruct (C5_errors_are_not_sticky k "NetworkError" 5 [1%nat; 2%nat] 3%nat
              (example_policy 1000) 6 s)
    as (Ho & _ & Hf1 & _ & _ & Hf2 & _).
  - vm_compute. reflexivity.
  - reflexivity.
  - split; [exact Ho|].
    etrans; [exact Hf2|]. f_equal.
Defined.

(** [useGetPetById(0)] and [useGetOrderById(0)] with no options: the
    order query stays off, the pet query fetches pet 0. *)
Lemma C9_pet_zero_is_fetched :
  let s : State string string := example_store (pet 5) in
  getOrFetch 1%nat (order 0) (useGetOrderById_policy 0 no_options) 10 s = s /\
  fetched (getOrFetch 1%nat (pet 0) (useGetPetById_policy 0 no_options) 10 s)
    = [pet 0].
Proof.
  intros s.
  destruct (C9_suspense_pet_query_runs_when_disabled 1%nat 10 s 0 no_options)
    as (_ & (_ & Hord) & (_ & _ & Hpet & _));
    [lia | discriminate | vm_compute; reflexivity | apply lookup_empty |].
  split; [exact Hord | exact Hpet].
Defined.

(** A throwing SDK call and a body-less response on an empty server store. *)
Lemma C8_failure_paths_on_empty_store :
  let throwing : FindPetsByStatus (PetType := string) (E := string) :=
    fun _ _ => RejectedWith "NetworkError" in
  let bodyless : FindPetsByStatus (PetType := string) (E := string) :=
    fun _ _ => Fulfilled (mkResponse JNull (JVal "NetworkError")) in
  loader_awaited throwing (Some "42") 0 init = (RejectedWith "NetworkError", init) /\
  fetched (client_first_read 9 (client_boot (E := string)
             (payload_of (loader_awaited throwing (Some "42") 0 init).2)))
    = [ssr_key] /\
  fetched (client_first_read 9 (client_boot (E := string)
             (payload_of (loader_streaming_settled throwing (Some "42") 0 3 init))))
    = [ssr_key] /\
  (ssr_key, [], 0) ∈ payload_of (loader_awaited bodyless (Some "42") 0 init).2.
Proof.
  intros throwing bodyless.
  destruct (C8_ssr_failure_paths throwing bodyless (Some "42") "NetworkError"
              (mkResponse JNull (JVal "NetworkError")) 0 3 9 init)
    as ((Ha & _ & Hac & _) & _ & (Hc & _) & (_ & Hb));
    [reflexivity | reflexivity | discriminate | apply lookup_empty
    | apply lookup_empty |].
  split; [exact Ha | split; [exact Hac | split; [exact Hc | exact Hb]]].
Defined.

End Instances.

(** * Further properties of the sources *)

(** ** Keys of different resources *)

Section KeyDomains.

(** X1: the key factory never gives two different requests the same key:
    [pet] and [order] are injective in the id, and keys built by two
    different factories among [all], [pets], [pet], [petsByStatus],
    [inventory], [orders] and [order] differ, whatever ids and filters they
    carry. *)
Theorem X1_keys_never_collide (id id' : Z) (st : list PetStatus) :
  (pet id = pet id' <-> id = id') /\
  (order id = order id' <-> id = id') /\
  (all <> pets /\ all <> pet id /\ all <> petsByStatus st /\
   all <> inventory /\ all <> orders /\ all <> order id) /\
  (pets <> pet id /\ pets <> petsByStatus st /\ pets <> inventory /\
   pets <> orders /\ pets <> order id) /\
  (pet id <> petsByStatus st /\ pet id <> inventory /\ pet id <> orders /\
   pet id <> order id') /\
  (petsByStatus st <> inventory /\ petsByStatus st <> orders /\
   petsByStatus st <> order id) /\
  (inventory <> orders /\ inventory <> order id) /\
  orders <> order id.
Proof.
  unfold pet, order, petsByStatus, inventory, orders, pets, all. cbn.
  repeat split; try discriminate; try (intros [= ->]; done); by intros ->.
Qed.

(** X2: the keys form a tree under [all]: every key of the factory starts
    with [all]; the keys of single pets and of status searches start with
    [pets], the keys of single orders with [orders]; and no key of one branch
    (pets, orders, inventory) starts with the root of another. *)
Theorem X2_key_hierarchy (id : Z) (st : list PetStatus) :
  (all `prefix_of` pets /\ all `prefix_of` pet id /\
   all `prefix_of` petsByStatus st /\ all `prefix_of` inventory /\
   all `prefix_of` orders /\ all `prefix_of` order id) /\
  (pets `prefix_of` pet id /\ pets `prefix_of` petsByStatus st /\
   orders `prefix_of` order id) /\
  (~ pets `prefix_of` inventory /\ ~ pets `prefix_of` orders /\
   ~ pets `prefix_of` order id) /\
  (~ orders `prefix_of` inventory /\ ~ orders `prefix_of` pets /\
   ~ orders `prefix_of` pet id /\ ~ orders `prefix_of` petsByStatus st) /\
  (~ inventory `prefix_of` pets /\ ~ inventory `prefix_of` pet id /\
   ~ inventory `prefix_of` petsByStatus st /\ ~ inventory `prefix_of` orders /\
   ~ inventory `prefix_of` order id).
Proof.
  unfold pet, order, petsByStatus, inventory, orders, pets, all. cbn.
  repeat split; try (by eexists); by intros [rest [=]].
Qed.

End KeyDomains.

(** ** What the page's mutations do to the cache *)

Section MutationFacts.
Context {T E : Type}.
Implicit Types (st : DemoUi * State T E) (k : CacheKey).

Lemma starts_with_pets (id : Z) (sts : list PetStatus) :
  starts_with pets (pet id) = true /\
  starts_with pets (petsByStatus sts) = true /\
  starts_with pets inventory = false /\
  starts_with pets (order id) = false /\
  starts_with pets orders = false.
Proof.
  unfold starts_with, pet, order, petsByStatus, inventory, orders, pets, all.
  cbn. repeat split;
    first [ apply bool_decide_eq_true; by eexists
          | apply bool_decide_eq_false; by intros [rest [=]] ].
Qed.

Lemma starts_with_inventory (id : Z) (sts : list PetStatus) :
  starts_with inventory inventory = true /\
  starts_with inventory (pet id) = false /\
  starts_with inventory (petsByStatus sts) = false /\
  starts_with inventory (order id) = false /\
  starts_with inventory orders = false.
Proof.
  unfold starts_with, pet, order, petsByStatus, inventory, orders, pets, all.
  cbn. repeat split;
    first [ apply bool_decide_eq_true; by eexists
          | apply bool_decide_eq_false; by intros [rest [=]] ].
Qed.

Lemma pets_then_inventory_lookup (s : State T E) k :
  store (invalidateInventoryQueries (invalidatePetQueries s)) !! k
  = (fun e => if starts_with pets k || starts_with inventory k
              then with_status stale e else e) <$> store s !! k.
Proof.
  unfold invalidateInventoryQueries, invalidatePetQueries.
  rewrite !invalidate_lookup.
  destruct (store s !! k) as [e|], (starts_with pets k),
    (starts_with inventory k); reflexivity.
Qed.

(** X3: a rejected mutation leaves the form and the cache as they were. A
    fulfilled add, update or delete marks every cached pet and every status
    search stale with its data kept; only the add marks the inventory stale
    as well; cached orders are never touched. The add clears the two form
    fields and the delete clears the pet id field. *)
Theorem X3_mutations_invalidate_pets_only
    st (err : E) (added : SdkResponse Pet E) (finished : SdkResponse unit E)
    (id : Z) (sts : list PetStatus) :
  let afterAdd := addPet_flow (Fulfilled added) st in
  let afterUpdate := updatePet_flow (Fulfilled finished) st in
  let afterDelete := deletePet_flow (Fulfilled finished) st in
  (addPet_flow (RejectedWith err) st = st /\
   updatePet_flow (RejectedWith err) st = st /\
   deletePet_flow (RejectedWith err) st = st) /\
  (store afterAdd.2 !! pet id = with_status stale <$> store st.2 !! pet id /\
   store afterUpdate.2 !! pet id = with_status stale <$> store st.2 !! pet id /\
   store afterDelete.2 !! pet id = with_status stale <$> store st.2 !! pet id) /\
  (store afterAdd.2 !! petsByStatus sts
     = with_status stale <$> store st.2 !! petsByStatus sts /\
   store afterUpdate.2 !! petsByStatus sts
     = with_status stale <$> store st.2 !! petsByStatus sts /\
   store afterDelete.2 !! petsByStatus sts
     = with_status stale <$> store st.2 !! petsByStatus sts) /\
  (store afterAdd.2 !! inventory = with_status stale <$> store st.2 !! inventory /\
   store afterUpdate.2 !! inventory = store st.2 !! inventory /\
   store afterDelete.2 !! inventory = store st.2 !! inventory) /\
  (store afterAdd.2 !! order id = store st.2 !! order id /\
   store afterUpdate.2 !! order id = store st.2 !! order id /\
   store afterDelete.2 !! order id = store st.2 !! order id) /\
  (ui_newPetName afterAdd.1 = "" /\ ui_newPetPhotoUrl afterAdd.1 = "" /\
   ui_petId afterAdd.1 = ui_petId st.1 /\
   afterUpdate.1 = st.1 /\
   ui_petId afterDelete.1 = "" /\ ui_newPetName afterDelete.1 = ui_newPetName st.1).
Proof.
  intros afterAdd afterUpdate afterDelete.
  destruct (starts_with_pets id sts) as (Hp1 & Hp2 & Hp3 & Hp4 & _).
  destruct (starts_with_inventory id sts) as (Hi1 & Hi2 & Hi3 & Hi4 & _).
  subst afterAdd afterUpdate afterDelete.
  unfold addPet_flow, updatePet_flow, deletePet_flow, mutation_settled,
    addPet_mutationFn, updatePet_mutationFn, deletePet_mutationFn,
    addPet_onSuccess, updatePet_onSuccess, deletePet_onSuccess, mutation_onError.
  cbn [fst snd ui_newPetName ui_newPetPhotoUrl ui_petId].
  rewrite !pets_then_inventory_lookup.
  unfold invalidatePetQueries. rewrite !invalidate_lookup.
  rewrite Hp1, Hp2, Hp3, Hp4, Hi1, Hi2, Hi3, Hi4. cbn [orb].
  repeat split; try done; by destruct (store st.2 !! _).
Qed.

End MutationFacts.

(** ** Token storage and the shared credential *)

Section TokenFacts.
Implicit Types (env : Env) (c : ClientConfig) (st : Env * ClientConfig).

Lemma setStoredToken_works env c (t : string) :
  storage_works env = true ->
  setStoredToken t (env, c)
  = (mkEnv (has_window env) (storage_throws env) (require_throws env)
           (<[STORAGE_KEY := t]> (local_storage env)),
     attachAuthToClient (Some t) c).
Proof.
  unfold storage_works, setStoredToken.
  by destruct (has_window env), (storage_throws env).
Qed.

Lemma clearStoredToken_works env c :
  storage_works env = true ->
  clearStoredToken (env, c)
  = (mkEnv (has_window env) (storage_throws env) (require_throws env)
           (delete STORAGE_KEY (local_storage env)),
     attachAuthToClient None c).
Proof.
  unfold storage_works, clearStoredToken.
  by destruct (has_window env), (storage_throws env).
Qed.

Lemma stored_token_noop env c (t : string) :
  storage_works env = false ->
  setStoredToken t (env, c) = (env, c) /\ clearStoredToken (env, c) = (env, c) /\
  getStoredToken env = None.
Proof.
  unfold storage_works, setStoredToken, clearStoredToken, getStoredToken.
  by destruct (has_window env), (storage_throws env).
Qed.

Lemma getStoredToken_works env :
  storage_works env = true ->
  getStoredToken env = local_storage env !! STORAGE_KEY.
Proof.
  unfold storage_works, getStoredToken.
  by destruct (has_window env), (storage_throws env).
Qed.

Lemma attach_attach (tokA tokB : option string) c :
  attachAuthToClient tokB (attachAuthToClient tokA c) = attachAuthToClient tokB c.
Proof. by destruct tokA as [[|a t]|], tokB as [[|b u]|]. Qed.

(** X4: in a browser whose storage works, a token written with
    [setStoredToken] is what [getStoredToken] and [authCallback] read back,
    and the shared client transmits its credential; after [clearStoredToken]
    no token is read and no credential is transmitted; other entries of
    [localStorage] are left alone by both. *)
Theorem X4_stored_token_round_trip env c (t : string) :
  storage_works env = true ->
  let written := setStoredToken t (env, c) in
  let cleared := clearStoredToken written in
  (getStoredToken written.1 = Some t /\ authCallback written.1 = Some t /\
   outgoing_credential written.2 = header_for (Some t)) /\
  (getStoredToken cleared.1 = None /\ authCallback cleared.1 = None /\
   outgoing_credential cleared.2 = None) /\
  (forall key, key <> STORAGE_KEY ->
     local_storage written.1 !! key = local_storage env !! key /\
     local_storage cleared.1 !! key = local_storage env !! key).
Proof.
  intros Hw written cleared.
  assert (H1 : written
               = (mkEnv (has_window env) (storage_throws env) (require_throws env)
                        (<[STORAGE_KEY := t]> (local_storage env)),
                  attachAuthToClient (Some t) c))
    by (by apply setStoredToken_works).
  assert (Hw1 : storage_works written.1 = true) by (by rewrite H1).
  assert (H2 : cleared
               = (mkEnv (has_window env) (storage_throws env) (require_throws env)
                        (delete STORAGE_KEY (<[STORAGE_KEY := t]> (local_storage env))),
                  attachAuthToClient None (attachAuthToClient (Some t) c))).
  { subst cleared. rewrite H1. by rewrite clearStoredToken_works. }
  assert (Hw2 : storage_works cleared.1 = true) by (by rewrite H2).
  unfold authCallback.
  rewrite !getStoredToken_works by done. rewrite H1, H2. cbn [fst snd local_storage].
  rewrite lookup_insert_eq, lookup_delete_eq, !attach_credential.
  repeat split; try done.
  - by rewrite lookup_insert_ne.
  - by rewrite lookup_delete_ne, lookup_insert_ne.
Qed.

(** X5: the last write wins: writing a token after another, or clearing
    after a write, leaves exactly the state the second operation alone would
    have left, in every environment. *)
Theorem X5_last_token_operation_wins st (t1 t2 : string) :
  setStoredToken t2 (setStoredToken t1 st) = setStoredToken t2 st /\
  clearStoredToken (setStoredToken t1 st) = clearStoredToken st /\
  setStoredToken t2 (clearStoredToken st) = setStoredToken t2 st /\
  clearStoredToken (clearStoredToken st) = clearStoredToken st.
Proof.
  destruct st as [env c].
  destruct (storage_works env) eqn:Hw.
  - rewrite !(setStoredToken_works env) by done.
    rewrite !(clearStoredToken_works env) by done.
    rewrite !setStoredToken_works, !clearStoredToken_works by done.
    cbn [has_window storage_throws require_throws local_storage].
    rewrite !attach_attach.
    by rewrite !insert_insert_eq, !delete_insert_eq, !insert_delete_eq, delete_delete_eq.
  - destruct (stored_token_noop env c t1 Hw) as (-> & -> & _).
    destruct (stored_token_noop env c t2 Hw) as (-> & -> & _).
    done.
Qed.

(** X6: where there is no [window], or [localStorage] throws, writing and
    clearing change neither the storage nor the shared client, and no token is
    read. *)
Theorem X6_no_storage_no_effect env c (t : string) :
  storage_works env = false ->
  setStoredToken t (env, c) = (env, c) /\
  clearStoredToken (env, c) = (env, c) /\
  getStoredToken env = None /\
  authCallback env = None.
Proof.
  intros Hw. destruct (stored_token_noop env c t Hw) as (H1 & H2 & H3).
  by rewrite H1, H2.
Qed.

Lemma synced_getContext env c :
  synced (env, c) -> synced (env, getContext_client_effect env c).
Proof.
  unfold synced. cbn [fst snd]. intros Hs.
  unfold getContext_client_effect.
  destruct (require_throws env); [done|].
  destruct (has_window env); [|done].
  destruct (truthy_string (getStoredToken env)) eqn:Ht.
  - apply attach_credential.
  - exact Hs.
Qed.

Lemma synced_after_write env c (t : string) :
  storage_works env = true ->
  synced (setStoredToken t (env, c)) /\ synced (clearStoredToken (env, c)).
Proof.
  intros Hw. unfold synced.
  rewrite setStoredToken_works, clearStoredToken_works by done.
  cbn [fst snd].
  rewrite !getStoredToken_works by done. cbn [local_storage].
  by rewrite lookup_insert_eq, lookup_delete_eq, !attach_credential.
Qed.

(** X7: once the shared client transmits the credential of the stored token,
    it keeps doing so across [setStoredToken], [clearStoredToken] and
    [getContext]; and where the storage works, the first two bring that about
    from any state. *)
Theorem X7_credential_follows_stored_token st (t : string) :
  synced st ->
  synced (setStoredToken t st) /\
  synced (clearStoredToken st) /\
  synced (st.1, getContext_client_effect st.1 st.2) /\
  (forall st' : Env * ClientConfig, storage_works st'.1 = true ->
     synced (setStoredToken t st') /\ synced (clearStoredToken st')).
Proof.
  intros Hs. destruct st as [env c]. cbn [fst snd].
  split; [|split; [|split]].
  - destruct (storage_works env) eqn:Hw.
    + by apply synced_after_write.
    + by destruct (stored_token_noop env c t Hw) as (-> & _ & _).
  - destruct (storage_works env) eqn:Hw.
    + by apply (synced_after_write env c t).
    + by destruct (stored_token_noop env c t Hw) as (_ & -> & _).
  - by apply synced_getContext.
  - intros [env' c'] Hw. by apply synced_after_write.
Qed.

(** X8: running [getContext] a second time changes nothing more; it never
    touches the base URL; and where [require] throws or there is no [window]
    it leaves the shared client exactly as it was. *)
Theorem X8_getContext_idempotent env c :
  getContext_client_effect env (getContext_client_effect env c)
    = getContext_client_effect env c /\
  cfg_baseUrl (getContext_client_effect env c) = cfg_baseUrl c /\
  (if require_throws env || negb (has_window env)
   then getContext_client_effect env c = c
   else cfg_auth (getContext_client_effect env c)
        = Some (AuthCallback authCallback)).
Proof.
  unfold getContext_client_effect.
  destruct (require_throws env), (has_window env); cbn [orb negb]; try done.
  by destruct (getStoredToken env) as [[|a t]|].
Qed.

End TokenFacts.

(** ** The handlers of the demo page *)

Section DemoFacts.
Implicit Types (p q : Pet).


(** X10: the add form sends a pet exactly when both the name and the photo
    URL are non-empty, and then the pet carries that name, that one photo
    URL, the status available and no id; otherwise it only alerts. *)
Theorem X10_add_pet_needs_name_and_photo (name url : string) (body : Pet) :
  (handleAddPet name url = MutateAddPet body <->
   name <> "" /\ url <> "" /\
   body = {| pet_id := None; pet_name := name; pet_photoUrls := [url];
             pet_status := Some available; pet_category := None;
             pet_tags := [] |}) /\
  (handleAddPet name url = Alert "Please provide both name and photo URL" <->
   name = "" \/ url = "") /\
  handleAddPet name url <> MutateUpdatePet body /\
  handleAddPet name url <> Nothing.
Proof.
  unfold handleAddPet.
  destruct name as [|a name], url as [|b url]; cbn [truthy_string negb orb].
  4:{ split; [|split; [|split]].
      - split.
        + intros [= <-]. done.
        + intros (_ & _ & ->). done.
      - split; [done|]. intros [|]; done.
      - done.
      - done. }
  all: split; [|split; [|split]]; try done.
  all: try (split; [done|]; intros (? & ? & ?); done).
  all: split; [intros _|done]; auto.
Qed.

(** X11: the Delete button deletes exactly when the pet has an id other than
    zero and the user confirms; a pet whose id is 0 or missing cannot be
    deleted from the page, and nothing else is ever sent. *)
Theorem X11_delete_needs_nonzero_id p (confirmed : bool) (n : Z) :
  (delete_click p confirmed = MutateDeletePet n <->
   pet_id p = Some n /\ n <> 0 /\ confirmed = true) /\
  (pet_id p = None \/ pet_id p = Some 0 -> delete_click p confirmed = Nothing) /\
  (delete_click p confirmed = Nothing \/
   exists m, delete_click p confirmed = MutateDeletePet m).
Proof.
  unfold delete_click, handleDeletePet.
  destruct (pet_id p) as [m|]; cbn [truthy_number].
  2:{ split; [split; [done|by intros ([=] & _)]|]. split; [done|by left]. }
  assert (Hz : m = 0 \/ m <> 0) by lia. destruct Hz as [->|Hm].
  { split; [split; [done|by intros ([= <-] & Hn & _)]|]. split; [done|by left]. }
  assert (Ht : (match m with 0 => false | _ => true end) = true) by (by destruct m).
  rewrite Ht. destruct confirmed.
  - split; [split|split].
    + by intros [= <-].
    + by intros ([= ->] & _ & _).
    + intros [[=]|[= ->]]. done.
    + right. by eexists.
  - split; [split|split]; try done.
    + by intros (_ & _ & [=]).
    + by left.
Qed.

(** X12: the pet lookup of the page asks for the pet the input parsed to,
    and for pet 0 when the input is not a number or is 0. The flag the hook
    computes is true exactly for a positive number, but the hook reads under
    the suspense policy, which is enabled for every input: on a cache that
    has nothing for the key the lookup invokes the fetch function, for pet 0
    as well. *)
Theorem X12_pet_lookup_runs_for_every_input {T E : Type}
    (parsed : option Z) (c : Caller) (now : Z) (s : State T E) :
  (useGetPetById_enabled (parsed_or_zero parsed) no_options = true <->
   exists n, parsed = Some n /\ 0 < n) /\
  (forall n, parsed = Some n -> pet_lookup_key parsed = pet n) /\
  (parsed = None \/ parsed = Some 0 -> pet_lookup_key parsed = pet 0) /\
  enabled (pet_lookup_policy parsed) = true /\
  (store s !! pet_lookup_key parsed = None ->
   pendingReq s !! pet_lookup_key parsed = None ->
   fetched (getOrFetch c (pet_lookup_key parsed) (pet_lookup_policy parsed) now s)
     = pet_lookup_key parsed :: fetched s).
Proof.
  split; [|split; [|split; [|split]]].
  - unfold parsed_or_zero, useGetPetById_enabled. cbn [opt_enabled no_options].
    destruct parsed as [m|]; cbn [truthy_number].
    2:{ split; [done|by intros (n & [=] & _)]. }
    assert (Hp : (if match m with 0 => false | _ => true end then m else 0) = m)
      by (by destruct m).
    rewrite Hp, Z.ltb_lt. split; [by exists m|]. by intros (n & [= ->] & Hn).
  - intros n ->. unfold pet_lookup_key, parsed_or_zero. cbn [truthy_number].
    by destruct n.
  - by intros [->| ->].
  - done.
  - intros Hk Hidle.
    rewrite getOrFetch_miss; [|done|by intros e; rewrite Hk].
    by rewrite on_miss_fresh_fetch.
Qed.

End DemoFacts.

(** ** Session, current user and the token of the SSR call *)

Section SessionFacts.

(** X13: logging in never returns an error and does not depend on the
    password: it always redirects to the root and leaves a session whose
    current user has id 1 and the email given, with the stored role kept;
    logging out redirects too and leaves no current user. A current user is
    reported exactly when the session holds a non-empty user id, and carries
    that id and the session's email. After a login [getPetsSsr] authorizes
    its call as [Bearer 1], after a logout it sends no credential. *)
Theorem X13_session_round_trip (email pw pw' : string) (d : SessionData) :
  let logged := (loginFn email pw d).2 in
  ((loginFn email pw d).1 = ThrowsRedirect "/" /\
   loginFn email pw d = loginFn email pw' d /\
   sess_role logged = sess_role d) /\
  getCurrentUserFn logged
    = Some {| user_id := "1"; user_email := Some email; user_name := "test" |} /\
  ((logoutFn logged).1 = ThrowsRedirect "/" /\
   getCurrentUserFn (logoutFn logged).2 = None) /\
  (getCurrentUserFn d = None <-> truthy_string (sess_userId d) = false) /\
  (forall u, getCurrentUserFn d = Some u ->
     sess_userId d = Some (user_id u) /\ user_email u = sess_email d) /\
  (ssr_token (sess_userId logged) = Some "Bearer 1" /\
   ssr_token (sess_userId (logoutFn logged).2) = None).
Proof.
  intros logged.
  split; [done|]. split; [done|]. split; [done|].
  split; [|split; [|done]].
  - unfold getCurrentUserFn. by destruct (sess_userId d) as [[|a t]|].
  - intros u. unfold getCurrentUserFn.
    destruct (sess_userId d) as [[|a t]|]; try done. by intros [= <-].
Qed.

(** X14: when the provider's [fetchUser] is through, [isLoading] is false
    whatever the answer was; a failed request shows no user even if one was
    shown before, a successful one shows exactly the answer; while the request
    runs the previous user stays with [isLoading] true. After a login the
    provider shows the user with id 1 and the login email, after a logout
    none. *)
Theorem X14_provider_after_refresh {E} (answer : settled (option User) E)
    (err : E) (st : AuthState) (email pw : string) (d : SessionData) :
  auth_isLoading (fetchUser_final answer st) = false /\
  auth_user (fetchUser_final (RejectedWith err) st) = None /\
  (forall u, auth_user (fetchUser_final (E := E) (Fulfilled u) st) = u) /\
  head (fetchUser answer st)
    = Some {| auth_user := auth_user st; auth_isLoading := true |} /\
  auth_user (fetchUser_final (E := E)
               (Fulfilled (getCurrentUserFn (loginFn email pw d).2)) st)
    = Some {| user_id := "1"; user_email := Some email; user_name := "test" |} /\
  auth_user (fetchUser_final (E := E)
               (Fulfilled (getCurrentUserFn (logoutFn d).2)) st) = None.
Proof. by repeat split. Qed.

(** X17: the token [getPetsSsr] builds is absent exactly when the session
    has no non-empty user id, and otherwise is that id with the scheme in
    front; handed to [initAuthForServer] it is transmitted as it is, with no
    second prefix. *)
Theorem X17_ssr_token_is_kept (userId : option string) (c : ClientConfig) (u : string) :
  (ssr_token userId = None <-> truthy_string userId = false) /\
  (ssr_token userId = Some u ->
     exists id, userId = Some id /\ id <> "" /\ u = "Bearer " +:+ id) /\
  outgoing_credential (initAuthForServer (ssr_token userId) c) = ssr_token userId.
Proof.
  unfold initAuthForServer. rewrite attach_credential.
  unfold ssr_token. destruct userId as [[|a t]|]; cbn [truthy_string].
  - by repeat split.
  - split; [done|]. split.
    + intros [= <-]. by eexists.
    + unfold header_for.
      change (truthy_string (Some ("Bearer " +:+ String a t))) with true.
      by rewrite bearer_header_prefixed.
  - by repeat split.
Qed.

End SessionFacts.

(** ** The prefilled cache on the client *)

Section PrefillFacts.
Context {T E : Type}.
Implicit Types (st : gmap CacheKey (CacheEntry T E)).

Lemma snapshot_entry_key (ke : CacheKey * CacheEntry T E) (tr : CacheKey * T * Z) :
  snapshot_entry None ke = Some tr -> tr.1.1 = ke.1.
Proof.
  unfold snapshot_entry.
  destruct (status ke.2), (data ke.2), (fetchedAt ke.2); try done.
  by intros [= <-].
Qed.

Lemma snapshot_keys_nodup st :
  NoDup ((snapshot (T := T) st None).*1.*1).
Proof.
  unfold snapshot. pose proof (NoDup_fst_map_to_list st) as Hnd.
  induction (map_to_list st) as [|ke l IH]; [constructor|].
  cbn in Hnd. apply NoDup_cons in Hnd as [Hnotin Hnd].
  cbn. destruct (snapshot_entry None ke) as [tr|] eqn:Hke; [|by apply IH].
  cbn. apply NoDup_cons. split; [|by apply IH].
  rewrite (snapshot_entry_key ke tr Hke). intros Hin. apply Hnotin.
  apply list_elem_of_fmap in Hin as (kd & -> & Hin).
  apply list_elem_of_fmap in Hin as (tr' & -> & Hin).
  apply list_elem_of_omap in Hin as (ke' & Hin' & Hke').
  rewrite (snapshot_entry_key ke' tr' Hke').
  apply list_elem_of_fmap. by exists ke'.
Qed.

Lemma hydrate_replays (payload : list (CacheKey * T * Z)) st k (d : T) (t : Z) :
  NoDup (payload.*1.*1) ->
  (k, d, t) ∈ payload ->
  st !! k = None ->
  hydrate st payload !! k
  = Some {| data := Some d; status := success; fetchedAt := Some t;
            error_info := None |}.
Proof.
  revert st. induction payload as [|[[k' d'] t'] payload IH]; intros st Hnd Hin Hk.
  - by apply elem_of_nil in Hin.
  - cbn in Hnd. apply NoDup_cons in Hnd as [Hnotin Hnd].
    apply elem_of_cons in Hin as [[= <- <- <-]|Hin].
    + change (hydrate st ((k, d, t) :: payload))
        with (hydrate (hydrate_one st (k, d, t)) payload).
      apply hydrate_present. unfold hydrate_one, get, put. rewrite Hk.
      apply lookup_insert_eq.
    + assert (k' <> k).
      { intros ->. apply Hnotin. apply list_elem_of_fmap.
        exists (k, d). split; [done|]. apply list_elem_of_fmap. by exists (k, d, t). }
      change (hydrate st ((k', d', t') :: payload))
        with (hydrate (hydrate_one st (k', d', t')) payload).
      apply IH; [done|done|].
      unfold hydrate_one, get, put. destruct (st !! k'); [done|].
      by rewrite lookup_insert_ne.
Qed.
End PrefillFacts.

Section PrefillLoaders.
Context {PetType E : Type}.
Implicit Types (s : State (list PetType) E)
               (sdk : FindPetsByStatus (PetType := PetType) (E := E)).

Lemma client_boot_has_prefill s (pets : list PetType) (t : Z) e :
  store s !! ssr_key = Some e -> status e = success ->
  data e = Some pets -> fetchedAt e = Some t ->
  store (client_boot (E := E) (payload_of s)) !! ssr_key
  = Some {| data := Some pets; status := success; fetchedAt := Some t;
            error_info := None |}.
Proof.
  intros He Hst Hd Ht. unfold client_boot, payload_of. cbn [store].
  apply hydrate_replays; [apply snapshot_keys_nodup| |apply lookup_empty].
  apply snapshot_elem. by exists e.
Qed.

(** X15: when [getPetsSsr] fulfils on a server store that is cold for the
    key, the awaiting loader returns the pets after one fetch, and a client
    booted from the resulting payload gets exactly those pets on the
    component's first read without fetching, as long as that read comes
    within the default stale time of the server's fetch; a later first read
    fetches. *)
Theorem X15_awaited_prefill_serves_first_read sdk userId (pets : list PetType) now clientNow s :
  getPetsSsr sdk userId = Fulfilled pets ->
  store s !! ssr_key = None ->
  pendingReq s !! ssr_key = None ->
  let loaded := loader_awaited sdk userId now s in
  let client := client_boot (E := E) (payload_of loaded.2) in
  loaded.1 = Fulfilled pets /\
  invocations ssr_key loaded.2 = S (invocations ssr_key s) /\
  (clientNow - now < DEFAULT_STALE_TIME ->
     observed (client_first_read clientNow client)
       = [(component_caller, Got (Some pets))] /\
     fetched (client_first_read clientNow client) = []) /\
  (DEFAULT_STALE_TIME <= clientNow - now ->
     observed (client_first_read clientNow client) = [] /\
     fetched (client_first_read clientNow client) = [ssr_key]).
Proof.
  intros Hok Hk Hp loaded client.
  assert (Hl : loaded
               = (Fulfilled pets,
                  {| store := <[ssr_key := written (FetchOk pets) now
                                  (with_status loading new_entry)]> (store s);
                     pendingReq := pendingReq s;
                     fetched := ssr_key :: fetched s;
                     settledLog := ssr_key :: settledLog s;
                     observed := (loader_caller, Got (Some pets)) :: observed s |})).
  { subst loaded. unfold loader_awaited. rewrite Hok.
    by rewrite prefetch_cold. }
  assert (Hc : store client !! ssr_key
               = Some {| data := Some pets; status := success;
                         fetchedAt := Some now; error_info := None |}).
  { subst client. rewrite Hl. cbn [snd].
    eapply client_boot_has_prefill; [apply lookup_insert_eq|done..]. }
  split; [by rewrite Hl|]. split.
  { rewrite Hl. unfold invocations. cbn [snd fetched]. apply count_cons_eq. }
  split.
  - intros Hfresh. unfold client_first_read.
    rewrite (getOrFetch_hit component_caller ssr_key default_policy clientNow
               client _ eq_refl Hc); [done|].
    unfold is_fresh, default_policy. cbn.
    apply andb_true_iff. split; [done|]. apply Z.ltb_lt. exact Hfresh.
  - intros Hold. unfold client_first_read.
    rewrite getOrFetch_miss; [|done|].
    2:{ intros e. rewrite Hc. intros [= <-]. unfold is_fresh, default_policy. cbn.
        apply andb_false_iff. right. apply Z.ltb_ge. exact Hold. }
    by rewrite on_miss_fresh_fetch.
Qed.

(** X16: with the streaming loader, a component rendered on the server
    before the promise has settled joins the prefetch instead of fetching
    again; when the promise fulfils, loader and component receive the same
    pets from that one fetch, and a client booted from the payload is served
    them on its first read within the default stale time without fetching. *)
Theorem X16_streamed_prefill_is_shared sdk userId (pets : list PetType) now renderNow later clientNow s :
  getPetsSsr sdk userId = Fulfilled pets ->
  store s !! ssr_key = None ->
  pendingReq s !! ssr_key = None ->
  clientNow - later < DEFAULT_STALE_TIME ->
  let started := loader_streaming now s in
  let rendering := client_first_read renderNow started in
  let settled_ := prefetchQuery_settle ssr_key (getPetsSsr sdk userId) later rendering in
  let client := client_boot (E := E) (payload_of settled_) in
  (fetched started = ssr_key :: fetched s /\
   fetched rendering = fetched started /\
   pendingReq rendering !! ssr_key = Some [loader_caller; component_caller]) /\
  (observed settled_
     = (loader_caller, Got (Some pets)) :: (component_caller, Got (Some pets))
         :: observed s /\
   fetched settled_ = ssr_key :: fetched s) /\
  (observed (client_first_read clientNow client)
     = [(component_caller, Got (Some pets))] /\
   fetched (client_first_read clientNow client) = []).
Proof.
  intros Hok Hk Hp Hfresh started rendering settled_ client.
  assert (H1 : started
               = {| store := <[ssr_key := with_status loading new_entry]> (store s);
                    pendingReq := <[ssr_key := [loader_caller]]> (pendingReq s);
                    fetched := ssr_key :: fetched s;
                    settledLog := settledLog s;
                    observed := observed s |}).
  { subst started. unfold loader_streaming, prefetchQuery_start.
    rewrite getOrFetch_miss; [|done|by intros e; rewrite Hk].
    rewrite on_miss_fresh_fetch by done. by rewrite Hk. }
  assert (H2 : rendering
               = {| store := store started;
                    pendingReq := <[ssr_key := [loader_caller; component_caller]]>
                                    (pendingReq s);
                    fetched := ssr_key :: fetched s;
                    settledLog := settledLog s;
                    observed := observed s |}).
  { subst rendering. unfold client_first_read.
    rewrite getOrFetch_miss; [|done|].
    2:{ intros e. rewrite H1. state_fields. rewrite lookup_insert_eq.
        intros [= <-]. by apply is_fresh_not_success. }
    rewrite (on_miss_join _ _ _ [loader_caller]).
    2:{ rewrite H1. state_fields. apply lookup_insert_eq. }
    rewrite H1. state_fields. by rewrite insert_insert_eq. }
  assert (H3 : settled_
               = {| store := <[ssr_key := written (FetchOk pets) later
                                 (with_status loading new_entry)]> (store started);
                    pendingReq := delete ssr_key (pendingReq rendering);
                    fetched := ssr_key :: fetched s;
                    settledLog := ssr_key :: settledLog s;
                    observed := (loader_caller, Got (Some pets))
                                  :: (component_caller, Got (Some pets))
                                  :: observed s |}).
  { subst settled_. unfold prefetchQuery_settle. rewrite Hok.
    rewrite (settle_pending _ _ _ _ [loader_caller; component_caller]).
    2:{ rewrite H2. state_fields. apply lookup_insert_eq. }
    rewrite H2. state_fields. rewrite H1. state_fields.
    by rewrite lookup_insert_eq. }
  assert (Hc : store client !! ssr_key
               = Some {| data := Some pets; status := success;
                         fetchedAt := Some later; error_info := None |}).
  { subst client.
    eapply client_boot_has_prefill;
      [rewrite H3; state_fields; apply lookup_insert_eq|done..]. }
  split; [|split].
  - rewrite H2, H1. state_fields. by rewrite lookup_insert_eq.
  - by rewrite H3.
  - unfold client_first_read.
    rewrite (getOrFetch_hit component_caller ssr_key default_policy clientNow
               client _ eq_refl Hc); [done|].
    unfold is_fresh, default_policy. cbn.
    apply andb_true_iff. split; [done|]. apply Z.ltb_lt. exact Hfresh.
Qed.
End PrefillLoaders.

(** ** The further properties at concrete inputs *)

Section MoreInstances.

(** A browser with working storage: the token written is read back and
    sent. *)
Lemma X4_token_abc_in_a_browser :
  let env := mkEnv true false false ∅ in
  getStoredToken (setStoredToken "abc" (env, initial_config)).1 = Some "abc" /\
  outgoing_credential (setStoredToken "abc" (env, initial_config)).2
    = Some "Bearer abc" /\
  getStoredToken (clearStoredToken (setStoredToken "abc" (env, initial_config))).1
    = None.
Proof.
  intros env.
  destruct (X4_stored_token_round_trip env initial_config "abc")
    as ((H1 & _ & H2) & (H3 & _) & _); [reflexivity|].
  split; [exact H1 | split; [exact H2 | exact H3]].
Defined.

(** On the server there is no [window]: nothing is stored or attached. *)
Lemma X6_server_side_write_is_dropped :
  let env := mkEnv false false false ∅ in
  setStoredToken "abc" (env, initial_config) = (env, initial_config) /\
  getStoredToken env = None.
Proof.
  intros env.
  destruct (X6_no_storage_no_effect env initial_config "abc")
    as (H1 & _ & H2 & _); [reflexivity|].
  split; [exact H1 | exact H2].
Defined.

(** A fresh client with an empty storage is in step, and stays so. *)
Lemma X7_fresh_client_stays_in_step :
  let st := (mkEnv true false false ∅, initial_config) in
  synced (setStoredToken "abc" st) /\ synced (clearStoredToken st).
Proof.
  intros st.
  destruct (X7_credential_follows_stored_token st "abc") as (H1 & H2 & _);
    [reflexivity|].
  split; [exact H1 | exact H2].
Defined.


(** The server fetched at 0; the client reads one second later. *)
Lemma X15_read_one_second_after_prefill :
  let sdk : FindPetsByStatus (PetType := string) (E := string) :=
    fun _ _ => Fulfilled (mkResponse (JVal ["rex"]) JUndefined) in
  let client := client_boot (E := string)
                  (payload_of (loader_awaited sdk None 0 init).2) in
  observed (client_first_read 1000 client)
    = [(component_caller, Got (Some ["rex"]))] /\
  fetched (client_first_read 1000 client) = [].
Proof.
  intros sdk client.
  destruct (X15_awaited_prefill_serves_first_read sdk None ["rex"] 0 1000 init)
    as (_ & _ & Hhit & _);
    [reflexivity | apply lookup_empty | apply lookup_empty |].
  apply Hhit. reflexivity.
Defined.

(** The streamed promise settles at 5; the component joined at 2. *)
Lemma X16_component_joins_the_stream :
  let sdk : FindPetsByStatus (PetType := string) (E := string) :=
    fun _ _ => Fulfilled (mkResponse (JVal ["rex"]) JUndefined) in
  let rendering := client_first_read 2 (loader_streaming 0 init) in
  fetched rendering = [ssr_key] /\
  observed (prefetchQuery_settle ssr_key (getPetsSsr sdk None) 5 rendering)
    = [(loader_caller, Got (Some ["rex"])); (component_caller, Got (Some ["rex"]))].
Proof.
  intros sdk rendering.
  destruct (X16_streamed_prefill_is_shared sdk None ["rex"] 0 2 5 1000 init)
    as ((Hs & Hr & _) & (Ho & _) & _);
    [reflexivity | apply lookup_empty | apply lookup_empty | reflexivity |].
  split; [|exact Ho].
  etrans; [exact Hr | exact Hs].
Defined.

End MoreInstances.
